(** * Pulse Density Modulation core (litex/soc/cores/pdm.py)

    A shallow embedding of the [PDM] module: the constructor
    [PDM.__init__] with its configuration checks, the [add_csr] facet,
    and the synchronous logic the constructor emits (a free running
    counter and a comparator on the bit-reversed counter).

    Signals are unsigned; a signal of width [w] holds a value in
    [0, 2^w), kept in [Z] with the wrap-around written out.  The
    definitions come first, the lemmas and the properties of the module
    follow. *)

From Stdlib Require Import ZArith Lia Bool List.
From stdpp Require Import base option list list_numbers strings pretty gmap.

Local Open Scope Z_scope.

(** ** Python slicing, as used by [counter[bits-1::-1]] *)

(** [slice(start, stop, step).indices(len)]; [None] is an omitted bound. *)
Definition slice_indices (start stop : option Z) (step len : Z) : Z * Z * Z :=
  let neg := step <? 0 in
  let lower := if neg then -1 else 0 in
  let upper := if neg then len - 1 else len in
  let clamp (v : Z) :=
    if v <? 0 then (if v + len <? lower then lower else v + len)
    else (if upper <? v then upper else v) in
  let start' := match start with
                | None => if neg then upper else lower
                | Some v => clamp v
                end in
  let stop' := match stop with
               | None => if neg then lower else upper
               | Some v => clamp v
               end in
  (start', stop', step).

(** [range(start, stop, step)] for a non-zero step. *)
Definition py_range (start stop step : Z) : list Z :=
  let len := if 0 <? step then (stop - start + step - 1) `div` step
             else (start - stop - step - 1) `div` (- step) in
  (λ k : nat, start + Z.of_nat k * step) <$> seq 0 (Z.to_nat len).

(** ** Migen values *)

(** [value[key]] for an integer key on a value of width [n]: the bit
    position selected, or [None] for the [IndexError]. *)
Definition getitem_int (n key : Z) : option Z :=
  if n <=? key then None
  else Some (if key <? 0 then key + n else key).

(** [value[start:stop:step]]: the bit positions, least significant
    first, that the resulting expression reads from [value].  With a
    step other than 1 Migen builds [Cat(value[i] for i in range(...))]. *)
Definition getitem_slice (n : Z) (start stop : option Z) (step : Z)
  : option (list Z) :=
  let '(a, b, s) := slice_indices start stop step n in
  if s =? 1 then Some (seqZ a (b - a))
  else mapM (getitem_int n) (py_range a b s).

(** One-bit slice [value[k]] of a value [v]. *)
Definition bit_of (v k : Z) : Z := Z.land (Z.shiftr v k) 1.

(** [Cat] of one-bit operands, first operand least significant. *)
Fixpoint Cat (l : list Z) : Z :=
  match l with
  | [] => 0
  | b :: r => Z.lor (Z.land b 1) (Z.shiftl (Cat r) 1)
  end.

(** Value of the expression built from tap positions [taps] on [v]. *)
Definition eval_taps (taps : list Z) (v : Z) : Z :=
  Cat ((bit_of v) <$> taps).

(** ** The comparator of [PDM.__init__]

    [self.counter[bits-1::-1]] on a counter of width [n]. *)
Definition reversed_taps (bits n : Z) : option (list Z) :=
  getitem_slice n (Some (bits - 1)) None (-1).

Definition reversed_counter (bits n c : Z) : Z :=
  eval_taps (default [] (reversed_taps bits n)) c.

(** [If(self.counter[bits-1::-1] < duty, out.eq(1)).Else(out.eq(0))]:
    the value assigned to [out] from the current counter and duty. *)
Definition pdm_out (bits n c d : Z) : Z :=
  if reversed_counter bits n c <? d then 1 else 0.

(** Bit reversal as the specification words it, by a shift and mask
    loop over the low [bits] bits: bit [i] of the result is bit
    [bits-1-i] of [c]. *)
Definition bitreverse (c bits : Z) : Z :=
  foldl (λ r i, Z.lor (Z.shiftl r 1) (Z.b2z (Z.testbit c i))) 0 (seqZ 0 bits).

(** ** Python and Migen objects *)

(** Identity of a signal object: one supplied by the caller, one created
    by the module (named after the attribute or expression that creates
    it), or the [k]-th register of a [MultiReg]. *)
Inductive sig_name :=
| External (k : nat)
| Internal (attr : string)
| Stage (k : nat).

Global Instance sig_name_eq_dec : EqDecision sig_name.
Proof. solve_decision. Defined.

(** A Migen [Signal]: width, reset value and the [reset_less] flag. *)
Record Signal := mkSignal {
  sname : sig_name;
  nbits : Z;
  reset : Z;
  reset_less : bool;
}.

Global Instance Signal_eq_dec : EqDecision Signal.
Proof. solve_decision. Defined.

(** Python values that reach the constructor or are stored on [self]. *)
Inductive PyVal :=
| PyNone
| PyInt (z : Z)
| PyStr (s : string)
| PySignal (s : Signal)
| PyCSRStorage (size : Z) (storage : Signal)
| PySyncCD (cd : string)      (* per-domain handle of [Module.sync] *)
| PyObject (k : nat).         (* any other object *)

Global Instance PyVal_eq_dec : EqDecision PyVal.
Proof. solve_decision. Defined.

Inductive exn :=
| ValueError (msg : string)
| TypeError (msg : string)
| AttributeError (msg : string)
| IndexError.

Inductive result (A : Type) :=
| Ok (a : A)
| Raise (e : exn).
Global Arguments Ok {A} a.
Global Arguments Raise {A} e.

Global Instance result_ret : MRet result := λ A a, Ok a.
Global Instance result_bind : MBind result := λ A B f m,
  match m with
  | Ok a => f a
  | Raise e => Raise e
  end.

(** The [reset] argument of [Signal]: a Python integer, or a
    [Constant] taken from another signal ([other.reset]). *)
Inductive ResetArg :=
| ResetInt (v : Z)
| ResetConst (v : Z).

(** [Constant(value, (nbits, signed))], which [Signal] builds from an
    integer [reset]: the width must be a strictly positive integer. *)
Definition Constant_new (v w : Z) : result Z :=
  if w <=? 0 then Raise (TypeError "Width must be a strictly positive integer")
  else Ok v.

(** [Signal(nbits, reset=..., reset_less=...)]: an integer reset is
    first wrapped in a [Constant] of the signal's width, then the width
    itself is checked. *)
Definition Signal_new (name : sig_name) (w : Z) (r : ResetArg) (rl : bool)
  : result Signal :=
  v ← match r with
      | ResetInt v => Constant_new v w
      | ResetConst v => Ok v
      end;
  if w <=? 0 then
    Raise (ValueError "Signal width must be a strictly positive integer")
  else Ok (mkSignal name w v rl).

(** Statements the module adds to [self.sync]. *)
Inductive Stmt :=
| SIncr (s : Signal)
    (* s.eq(s + 1) *)
| SIfLt (src : Signal) (taps : list Z) (rhs dst : Signal).
    (* If(Cat(src[k] for k in taps) < rhs, dst.eq(1)).Else(dst.eq(0)) *)

(** [MultiReg(i, o, n=n)] in [self.specials]. *)
Inductive Special :=
| MultiReg (i o : Signal) (n : nat).

(** The module under construction: instance attributes and the
    fragment collected through [self.sync +=] and [self.specials +=]. *)
Record PDM := mkPDM {
  attrs : gmap string PyVal;
  sync : list Stmt;
  specials : list Special;
}.

Definition new_module : PDM := mkPDM ∅ [] [].

Definition setattr (self : PDM) (name : string) (v : PyVal) : PDM :=
  mkPDM (<[name := v]> (attrs self)) (sync self) (specials self).

Definition getattr (self : PDM) (name : string) : result PyVal :=
  match attrs self !! name with
  | Some v => Ok v
  | None => Raise (AttributeError name)
  end.

Definition add_sync (self : PDM) (l : list Stmt) : PDM :=
  mkPDM (attrs self) (sync self ++ l) (specials self).

Definition add_specials (self : PDM) (l : list Special) : PDM :=
  mkPDM (attrs self) (sync self) (specials self ++ l).

Definition as_signal (v : PyVal) (what : string) : result Signal :=
  match v with
  | PySignal s => Ok s
  | _ => Raise (AttributeError what)
  end.

Definition as_int (v : PyVal) (what : string) : result Z :=
  match v with
  | PyInt z => Ok z
  | _ => Raise (AttributeError what)
  end.

(** [getattr(self.sync, name)]: Migen's [sync] proxy answers every
    attribute with a handle on the clock domain of that name
    ([self.sync.pix += ...] relies on it); the handle is not a string. *)
Definition sync_getattr (name : string) : PyVal := PySyncCD name.

(** Python [==] on the values above, as far as the module needs it:
    values of different kinds are never equal. *)
Definition py_eq (a b : PyVal) : bool := bool_decide (a = b).

(** Modelled from the spec: [CSRStorage] of [litex.soc.interconnect.csr],
    which is not part of the source at hand.  The register interface
    exposes one read/write register of width [bits] whose initial value
    is [default_duty]; the value lives in the register's [storage]
    signal, created as [Signal(size, reset=..., reset_less=...)]. *)
Definition CSRStorage (name : string) (size : Z) (r : ResetArg) (rl : bool)
  : result PyVal :=
  storage ← Signal_new (Internal (name +:+ ".storage")) size r rl;
  mret (PyCSRStorage size storage).

Definition csr_storage (v : PyVal) : result Signal :=
  match v with
  | PyCSRStorage _ st => Ok st
  | _ => Raise (AttributeError "storage")
  end.

(** ** [PDM.add_csr]

    The [description] text of the register is left out. *)
Definition add_csr (self : PDM) : result PDM :=
  duty ← getattr self "duty";
  let self := setattr self "_duty_csr" duty in
  let self := setattr self "duty" PyNone in
  bits ← getattr self "bits" ≫= (λ v, as_int v "bits");
  duty_csr ← getattr self "_duty_csr" ≫= (λ v, as_signal v "reset");
  csr ← CSRStorage "_duty" bits (ResetConst (reset duty_csr)) true;
  let self := setattr self "_duty" csr in
  let n := if py_eq (sync_getattr "clock_domains") (PyStr "sys")
           then 0%nat else 2%nat in
  storage ← csr_storage csr;
  mret (add_specials self [MultiReg storage duty_csr n]).

(** ** [PDM.__init__] *)

Inductive BitsOrDuty :=
| Bits (w : Z)
| Duty (s : Signal).

(** [if out is None: self.out = out = Signal()] *)
Definition init_out (self : PDM) (out : option Signal) : result (PDM * Signal) :=
  match out with
  | None =>
      o ← Signal_new (Internal "out") 1 (ResetInt 0) false;
      mret (setattr self "out" (PySignal o), o)
  | Some o => mret (self, o)
  end.

(** The duty source: an external signal, or an owned register with an
    optional CSR in front of it.  Returns the local [bits] and [duty]. *)
Definition init_duty (self : PDM) (bits_or_duty : BitsOrDuty)
    (default_duty : Z) (with_csr : bool) : result (PDM * Z * Signal) :=
  match bits_or_duty with
  | Duty d =>
      if bool_decide (default_duty ≠ 0) then
        Raise (ValueError "default_duty can not be set when external duty is supplied")
      else if with_csr then
        Raise (ValueError "with_csr can not be set when external duty is supplied")
      else
        mret (setattr self "duty" (PySignal d), nbits d, d)
  | Bits w =>
      let self := setattr self "bits" (PyInt w) in
      d ← Signal_new (Internal "duty") w (ResetInt default_duty) false;
      let self := setattr self "duty" (PySignal d) in
      self ← (if with_csr then add_csr self else mret self);
      mret (self, w, d)
  end.

(** The counter: owned and free running, or supplied and checked. *)
Definition init_counter (self : PDM) (bits : Z) (counter : PyVal)
  : result (PDM * Signal) :=
  match counter with
  | PyNone =>
      c ← Signal_new (Internal "counter") bits (ResetInt 0) true;
      let self := setattr self "counter" (PySignal c) in
      mret (add_sync self [SIncr c], c)
  | PySignal c =>
      if nbits c <? bits then
        Raise (ValueError ("counter nbits < " +:+ pretty bits))
      else
        mret (setattr self "counter" (PySignal c), c)
  | _ => Raise (ValueError "counter must be a Signal")
  end.

(** The comparator on [self.counter[bits-1::-1]]. *)
Definition init_compare (self : PDM) (bits : Z) (counter duty out : Signal)
  : result PDM :=
  taps ← from_option Ok (Raise IndexError) (reversed_taps bits (nbits counter));
  mret (add_sync self [SIfLt counter taps duty out]).

Definition PDM_init (out : option Signal) (bits_or_duty : BitsOrDuty)
    (default_duty : Z) (counter : PyVal) (with_csr : bool) : result PDM :=
  '(self, out) ← init_out new_module out;
  '(self, bits, duty) ← init_duty self bits_or_duty default_duty with_csr;
  '(self, counter) ← init_counter self bits counter;
  init_compare self bits counter duty out.

(** The signals the constructor creates, and its locals [bits], [duty]
    and [out] as functions of the arguments. *)
Definition out_sig : Signal := mkSignal (Internal "out") 1 0 false.
Definition duty_sig (w dd : Z) : Signal := mkSignal (Internal "duty") w dd false.
Definition counter_sig (bits : Z) : Signal :=
  mkSignal (Internal "counter") bits 0 true.
Definition storage_sig (w dd : Z) : Signal :=
  mkSignal (Internal "_duty.storage") w dd true.

Definition bits_of (bod : BitsOrDuty) : Z :=
  match bod with Bits w => w | Duty d => nbits d end.
Definition duty_of (bod : BitsOrDuty) (dd : Z) : Signal :=
  match bod with Bits w => duty_sig w dd | Duty d => d end.
Definition out_of (out : option Signal) : Signal := default out_sig out.

(** Tap positions [bits-1, ..., 0]. *)
Definition rev_taps (bits : Z) : list Z :=
  (λ k : nat, bits - 1 - Z.of_nat k) <$> seq 0 (Z.to_nat bits).

(** A signal object made by the caller: it is not one of the module's
    own signals and, as [Signal] guarantees, its width is positive. *)
Definition is_external (s : Signal) : bool :=
  match sname s with External _ => true | _ => false end.

Definition supplied (s : Signal) : Prop := is_external s = true ∧ 1 <= nbits s.

(** Duty configurations that pass the constructor's own checks. *)
Definition duty_config_ok (bod : BitsOrDuty) (dd : Z) (with_csr : bool) : Prop :=
  match bod with
  | Bits w => 1 <= w
  | Duty d => dd = 0 ∧ with_csr = false ∧ 1 <= nbits d
  end.

(** An 8 bit signal of the caller. *)
Definition sig8 (k : nat) : Signal := mkSignal (External k) 8 0 false.

(** ** Synchronous semantics of the collected fragment *)

(** Current value of every signal. *)
Definition store := sig_name → Z.

Definition upd (σ : store) (x : sig_name) (v : Z) : store :=
  λ y, if decide (x = y) then v else σ y.

(** Assignment to a signal truncates to its width. *)
Definition assign (s : Signal) (v : Z) (σ : store) : store :=
  upd σ (sname s) (v `mod` 2 ^ nbits s).

(** One statement of a clocked process: right-hand sides read the
    values [old] before the clock edge, the result lands in [new]. *)
Definition exec_stmt (old : store) (new : store) (st : Stmt) : store :=
  match st with
  | SIncr s => assign s (old (sname s) + 1) new
  | SIfLt src taps rhs dst =>
      assign dst (if eval_taps taps (old (sname src)) <? old (sname rhs)
                  then 1 else 0) new
  end.

(** Signal assigned by a statement. *)
Definition target (st : Stmt) : Signal :=
  match st with
  | SIncr s => s
  | SIfLt _ _ _ dst => dst
  end.

(** Under reset, every target that is not [reset_less] takes its reset
    value instead. *)
Definition apply_reset (new : store) (st : Stmt) : store :=
  let s := target st in
  if reset_less s then new else assign s (reset s) new.

(** The registers of [MultiReg(i, o, n)]: stage 0 samples [i], stage
    [k+1] samples stage [k]. *)
Definition exec_special (old : store) (new : store) (sp : Special) : store :=
  match sp with
  | MultiReg i o n =>
      foldl (λ acc k,
               upd acc (Stage k)
                   (match k with
                    | O => old (sname i)
                    | S k' => old (Stage k')
                    end))
            new (seq 0 n)
  end.

(** Combinatorial output of [MultiReg(i, o, n)]: [o] follows the last
    stage, or [i] itself when there is no stage. *)
Definition settle_special (σ : store) (sp : Special) : store :=
  match sp with
  | MultiReg i o n =>
      upd σ (sname o)
          (match n with
           | O => σ (sname i)
           | S k => σ (Stage k)
           end)
  end.

Definition settle (self : PDM) (σ : store) : store :=
  foldl settle_special σ (specials self).

(** One clock edge of the [sys] domain, with the domain reset [rst]. *)
Definition tick (self : PDM) (rst : bool) (σ : store) : store :=
  let σ1 := foldl (exec_stmt σ) σ (sync self) in
  let σ2 := if rst then foldl apply_reset σ1 (sync self) else σ1 in
  let σ3 := foldl (exec_special σ) σ2 (specials self) in
  settle self σ3.

(** Signals of the fragment, and the power-up store: every signal holds
    its reset value ([MultiReg] stages hold 0). *)
Definition stmt_signals (st : Stmt) : list Signal :=
  match st with
  | SIncr s => [s]
  | SIfLt src _ rhs dst => [src; rhs; dst]
  end.

Definition special_signals (sp : Special) : list Signal :=
  match sp with
  | MultiReg i o _ => [i; o]
  end.

Definition signals (self : PDM) : list Signal :=
  (sync self ≫= stmt_signals) ++ (specials self ≫= special_signals).

Definition power_up (self : PDM) : store :=
  settle self (foldr (λ s σ, upd σ (sname s) (reset s)) (λ _, 0) (signals self)).

(** The value of [o] on each of the [k] cycles after [σ], without reset
    and without outside writes. *)
Fixpoint out_trace (self : PDM) (o : Signal) (k : nat) (σ : store) : list Z :=
  match k with
  | O => []
  | S k' => let σ' := tick self false σ in σ' (sname o) :: out_trace self o k' σ'
  end.

(** The owned counter on its own, [counter.eq(counter + 1)] on [n]
    bits, and the values it takes on [k] successive cycles from [c]. *)
Definition counter_next (n c : Z) : Z := (c + 1) `mod` 2 ^ n.

Fixpoint counter_run (n c : Z) (k : nat) : list Z :=
  match k with
  | O => []
  | S k' => c :: counter_run n (counter_next n c) k'
  end.

(** Number of cycles, among the outputs [outs], in which [out] is 1,
    and in which it is 0. *)
Definition asserted (outs : list Z) : nat := length (filter (λ o, o = 1) outs).

Definition deasserted (outs : list Z) : nat := length (filter (λ o, o = 0) outs).

(** [rsts] successive clock edges of the [sys] domain, each with its
    reset flag, without outside writes in between. *)
Definition run (self : PDM) (rsts : list bool) (σ : store) : store :=
  foldl (λ σ' rst, tick self rst σ') σ rsts.

(** * Properties *)

(** ** Worked values: [bits = 3], as in the specification's example *)

Example reversed_taps_3 : reversed_taps 3 3 = Some [2; 1; 0].
Proof. reflexivity. Qed.

Example reversed_counter_3 :
  (λ c, reversed_counter 3 3 c) <$> [0; 1; 2; 3; 4; 5; 6; 7]
  = [0; 4; 2; 6; 1; 5; 3; 7].
Proof. reflexivity. Qed.

Example bitreverse_3 :
  (λ c, bitreverse c 3) <$> [0; 1; 2; 3; 4; 5; 6; 7]
  = [0; 4; 2; 6; 1; 5; 3; 7].
Proof. reflexivity. Qed.

Example pdm_out_3_duty3 :
  (λ c, pdm_out 3 3 c 3) <$> [0; 1; 2; 3; 4; 5; 6; 7]
  = [1; 0; 1; 0; 1; 0; 0; 0].
Proof. reflexivity. Qed.

Example default_instance_sync :
  sync <$> (match PDM_init None (Bits 8) 3 PyNone false with
            | Ok p => Some p
            | Raise _ => None
            end)
  = Some [SIncr (counter_sig 8);
          SIfLt (counter_sig 8) [7; 6; 5; 4; 3; 2; 1; 0] (duty_sig 8 3) out_sig].
Proof. vm_compute. reflexivity. Qed.

(** ** Bit-level facts about the comparator input *)

Section taps.

Lemma slice_indices_rev (bits n : Z) :
  1 <= bits <= n →
  slice_indices (Some (bits - 1)) None (-1) n = (bits - 1, -1, -1).
Proof.
  intros Hb. unfold slice_indices. cbn [Z.ltb Z.compare].
  replace (-1 <? 0) with true by reflexivity. cbn iota.
  destruct (Z.ltb_spec (bits - 1) 0) as [?|_]; [lia|].
  destruct (Z.ltb_spec (n - 1) (bits - 1)) as [?|_]; [lia|]. reflexivity.
Qed.

Lemma py_range_down (a : Z) :
  0 <= a →
  py_range a (-1) (-1) = (λ k : nat, a - Z.of_nat k) <$> seq 0 (Z.to_nat (a + 1)).
Proof.
  intros Ha. unfold py_range.
  replace (0 <? -1) with false by reflexivity. cbn iota.
  replace ((a - -1 - -1 - 1) `div` (- -1)) with (a + 1 + 1 - 1)
    by (rewrite Z.div_1_r; lia).
  replace (a + 1 + 1 - 1) with (a + 1) by lia.
  apply list_fmap_ext. intros _ k _. lia.
Qed.

Lemma mapM_getitem_int_id (n : Z) (l : list Z) :
  Forall (λ k, 0 <= k < n) l → mapM (getitem_int n) l = Some l.
Proof.
  intros Hl. apply mapM_Some. induction Hl as [|k l Hk _ IH]; constructor; [|done].
  unfold getitem_int.
  destruct (Z.leb_spec n k); [lia|].
  destruct (Z.ltb_spec k 0); [lia|]. reflexivity.
Qed.

Lemma reversed_taps_ok (bits n : Z) :
  1 <= bits <= n → reversed_taps bits n = Some (rev_taps bits).
Proof.
  intros Hb. unfold reversed_taps, getitem_slice, rev_taps.
  rewrite slice_indices_rev by done.
  replace (-1 =? 1) with false by reflexivity.
  rewrite py_range_down by lia.
  replace (bits - 1 + 1) with bits by lia.
  apply mapM_getitem_int_id.
  apply Forall_fmap, Forall_forall. intros k Hk.
  apply elem_of_seq in Hk. cbn. lia.
Qed.

Lemma bit_of_testbit (v k : Z) : Z.testbit (bit_of v k) 0 = Z.testbit v k.
Proof.
  unfold bit_of. rewrite Z.land_spec, Z.shiftr_spec by lia.
  cbn. rewrite andb_true_r. reflexivity.
Qed.

Lemma land_1_high (b i : Z) : 0 < i → Z.testbit (Z.land b 1) i = false.
Proof.
  intros Hi. rewrite Z.land_spec.
  replace (Z.testbit 1 i) with false; [apply andb_false_r|].
  symmetry. apply (Z.bits_above_log2 1 i); cbn; lia.
Qed.

Lemma Cat_testbit (l : list Z) (i : Z) :
  0 <= i →
  Z.testbit (Cat l) i
  = match l !! Z.to_nat i with Some b => Z.testbit b 0 | None => false end.
Proof.
  revert i. induction l as [|b l IH]; intros i Hi.
  - cbn. apply Z.testbit_0_l.
  - cbn [Cat]. rewrite Z.lor_spec.
    destruct (decide (i = 0)) as [->|Hne].
    + rewrite Z.shiftl_spec_low by lia. rewrite orb_false_r.
      rewrite Z.land_spec. cbn. apply andb_true_r.
    + rewrite land_1_high by lia. rewrite Z.shiftl_spec by lia.
      rewrite IH by lia. cbn.
      replace (Z.to_nat i) with (S (Z.to_nat (i - 1))) by lia. reflexivity.
Qed.

Lemma Cat_nonneg (l : list Z) : 0 <= Cat l.
Proof.
  induction l as [|b l IH]; cbn [Cat]; [lia|].
  apply Z.lor_nonneg. split.
  - apply Z.land_nonneg. right. lia.
  - apply Z.shiftl_nonneg. exact IH.
Qed.

Lemma eval_taps_testbit (taps : list Z) (v i : Z) :
  0 <= i →
  Z.testbit (eval_taps taps v) i
  = match taps !! Z.to_nat i with Some k => Z.testbit v k | None => false end.
Proof.
  intros Hi. unfold eval_taps. rewrite Cat_testbit by done.
  rewrite list_lookup_fmap. destruct (taps !! Z.to_nat i); cbn; [|done].
  apply bit_of_testbit.
Qed.

(** Bit [i] of the comparator input is bit [bits-1-i] of the counter. *)
Lemma reversed_counter_testbit (bits n c i : Z) :
  1 <= bits <= n →
  Z.testbit (reversed_counter bits n c) i
  = if decide (0 <= i < bits) then Z.testbit c (bits - 1 - i) else false.
Proof.
  intros Hb. unfold reversed_counter. rewrite reversed_taps_ok by done.
  cbn [from_option id]. unfold rev_taps.
  destruct (decide (0 <= i)) as [Hi|Hi].
  - rewrite eval_taps_testbit by done. rewrite list_lookup_fmap.
    destruct (decide (0 <= i < bits)) as [Hlt|Hge].
    + rewrite lookup_seq_lt by lia. cbn. f_equal. lia.
    + rewrite lookup_seq_ge by lia. reflexivity.
  - rewrite Z.testbit_neg_r by lia. rewrite decide_False by lia. reflexivity.
Qed.

Lemma reversed_counter_nonneg (bits n c : Z) : 0 <= reversed_counter bits n c.
Proof. apply Cat_nonneg. Qed.

Lemma testbit_high_bound (x w : Z) :
  0 <= w → 0 <= x → (∀ i, w <= i → Z.testbit x i = false) → x < 2 ^ w.
Proof.
  intros Hw Hx Hhi.
  destruct (decide (x = 0)) as [->|Hne]; [apply Z.pow_pos_nonneg; lia|].
  apply Z.log2_lt_pow2; [lia|].
  destruct (Z.lt_ge_cases (Z.log2 x) w) as [|Hge]; [done|].
  specialize (Hhi _ Hge). rewrite Z.bit_log2 in Hhi by lia. done.
Qed.

Lemma reversed_counter_range (bits n c : Z) :
  1 <= bits <= n → 0 <= reversed_counter bits n c < 2 ^ bits.
Proof.
  intros Hb. split; [apply reversed_counter_nonneg|].
  apply testbit_high_bound; [lia|apply reversed_counter_nonneg|].
  intros i Hi. rewrite reversed_counter_testbit by done.
  rewrite decide_False by lia. reflexivity.
Qed.

Lemma eval_reversed_taps (bits n : Z) (taps : list Z) (v : Z) :
  reversed_taps bits n = Some taps → eval_taps taps v = reversed_counter bits n v.
Proof. intros H. unfold reversed_counter. by rewrite H. Qed.

End taps.

(** ** Bit reversal is an involution on [0, 2^bits) *)

Section reversal.

Variables bits n : Z.
Hypothesis Hbits : 1 <= bits <= n.

Lemma testbit_above (c i : Z) :
  0 <= c < 2 ^ bits → bits <= i → Z.testbit c i = false.
Proof.
  intros Hc Hi. rewrite <- (Z.mod_small c (2 ^ bits)) by done.
  apply Z.mod_pow2_bits_high. lia.
Qed.

(** Only the low [bits] bits of the counter reach the comparator. *)
Lemma reversed_counter_mod (c : Z) :
  reversed_counter bits n (c `mod` 2 ^ bits) = reversed_counter bits n c.
Proof.
  apply Z.bits_inj'. intros i Hi.
  rewrite !reversed_counter_testbit by done.
  case_decide; [|done]. apply Z.mod_pow2_bits_low. lia.
Qed.

Lemma reversed_counter_involutive (c : Z) :
  0 <= c < 2 ^ bits →
  reversed_counter bits n (reversed_counter bits n c) = c.
Proof.
  intros Hc. apply Z.bits_inj'. intros i Hi.
  rewrite reversed_counter_testbit by done.
  case_decide as Hlt.
  - rewrite reversed_counter_testbit by done.
    rewrite decide_True by lia. f_equal. lia.
  - symmetry. apply testbit_above; [done|lia].
Qed.

Lemma reversed_counter_perm :
  (reversed_counter bits n) <$> seqZ 0 (2 ^ bits) ≡ₚ seqZ 0 (2 ^ bits).
Proof.
  apply NoDup_Permutation.
  - apply NoDup_fmap_2_strong; [|apply NoDup_seqZ].
    intros x y Hx Hy Heq.
    apply elem_of_seqZ in Hx. apply elem_of_seqZ in Hy.
    rewrite <- (reversed_counter_involutive x), <- (reversed_counter_involutive y)
      by lia.
    by rewrite Heq.
  - apply NoDup_seqZ.
  - intros x. rewrite list_elem_of_fmap. setoid_rewrite elem_of_seqZ. split.
    + intros (y & -> & _).
      pose proof (reversed_counter_range bits n y Hbits). lia.
    + intros Hx. exists (reversed_counter bits n x). split.
      * symmetry. apply reversed_counter_involutive. lia.
      * pose proof (reversed_counter_range bits n x Hbits). lia.
Qed.

Lemma reversed_counter_ones :
  reversed_counter bits n (2 ^ bits - 1) = 2 ^ bits - 1.
Proof.
  replace (2 ^ bits - 1) with (Z.ones bits) by (rewrite Z.ones_equiv; lia).
  apply Z.bits_inj'. intros i Hi.
  rewrite reversed_counter_testbit by done. case_decide.
  - rewrite !Z.ones_spec_low by lia. done.
  - rewrite Z.ones_spec_high by lia. done.
Qed.

End reversal.

(** ** The spec-side [bitreverse] agrees with the comparator input *)

Lemma b2z_high (b : bool) (j : Z) : 0 < j → Z.testbit (Z.b2z b) j = false.
Proof.
  intros Hj. destruct b; cbn [Z.b2z]; [|apply Z.testbit_0_l].
  apply (Z.bits_above_log2 1 j); cbn; lia.
Qed.

Lemma bitreverse_testbit_nat (c : Z) (k : nat) (j : Z) :
  0 <= j →
  Z.testbit (bitreverse c (Z.of_nat k)) j
  = if decide (j < Z.of_nat k) then Z.testbit c (Z.of_nat k - 1 - j) else false.
Proof.
  unfold bitreverse. revert j. induction k as [|k IH]; intros j Hj.
  - rewrite seqZ_nil by lia. cbn [foldl]. rewrite Z.testbit_0_l.
    case_decide; [lia|done].
  - rewrite seqZ_S, foldl_app. cbn [foldl]. rewrite Z.lor_spec.
    destruct (decide (j = 0)) as [->|Hne].
    + rewrite Z.shiftl_spec_low by lia. rewrite Z.b2z_bit0. cbn [orb].
      rewrite decide_True by lia. f_equal. lia.
    + rewrite Z.shiftl_spec by lia. rewrite b2z_high by lia.
      rewrite orb_false_r. rewrite IH by lia.
      repeat case_decide; try lia; try done. f_equal. lia.
Qed.

Lemma bitreverse_testbit (c bits i : Z) :
  0 <= bits →
  Z.testbit (bitreverse c bits) i
  = if decide (0 <= i < bits) then Z.testbit c (bits - 1 - i) else false.
Proof.
  intros Hb. destruct (decide (0 <= i)) as [Hi|Hi].
  - rewrite <- (Z2Nat.id bits) by done. rewrite bitreverse_testbit_nat by done.
    repeat case_decide; try lia; done.
  - rewrite Z.testbit_neg_r by lia. by rewrite decide_False by lia.
Qed.

Lemma reversed_counter_bitreverse (bits n c : Z) :
  1 <= bits <= n → reversed_counter bits n c = bitreverse c bits.
Proof.
  intros Hb. apply Z.bits_inj'. intros i Hi.
  rewrite reversed_counter_testbit, bitreverse_testbit by lia. done.
Qed.

(** ** Counting asserted cycles *)

Section counting.

Context {A : Type}.

Lemma filter_all (P : A → Prop) `{!∀ x, Decision (P x)} (l : list A) :
  Forall P l → filter P l = l.
Proof.
  induction 1 as [|x l Hx _ IH]; [done|].
  rewrite filter_cons_True by done. by rewrite IH.
Qed.

Lemma filter_none (P : A → Prop) `{!∀ x, Decision (P x)} (l : list A) :
  Forall (λ x, ¬ P x) l → filter P l = [].
Proof.
  induction 1 as [|x l Hx _ IH]; [done|].
  by rewrite filter_cons_False.
Qed.

Lemma filter_fmap_length {B} (f : A → B) (P : B → Prop)
    `{!∀ y, Decision (P y)} (l : list A) :
  length (filter P (f <$> l)) = length (filter (λ x, P (f x)) l).
Proof.
  induction l as [|x l IH]; [done|].
  rewrite fmap_cons, !filter_cons. case_decide; cbn; by rewrite IH.
Qed.

End counting.

Lemma below_count (d N : Z) :
  0 <= d <= N → length (filter (λ r, r < d) (seqZ 0 N)) = Z.to_nat d.
Proof.
  intros Hd. replace N with (d + (N - d)) by lia.
  rewrite seqZ_app by lia. rewrite filter_app, length_app.
  rewrite filter_all, filter_none.
  - rewrite length_seqZ. cbn. lia.
  - apply Forall_seqZ. lia.
  - apply Forall_seqZ. lia.
Qed.

Lemma above_count (d N : Z) :
  0 <= d <= N → length (filter (λ r, d <= r) (seqZ 0 N)) = Z.to_nat (N - d).
Proof.
  intros Hd. replace N with (d + (N - d)) at 1 by lia.
  rewrite seqZ_app by lia. rewrite filter_app, length_app.
  rewrite filter_none, filter_all.
  - rewrite length_seqZ. cbn. lia.
  - apply Forall_seqZ. lia.
  - apply Forall_seqZ. lia.
Qed.

Lemma pdm_out_1 (bits n c d : Z) :
  pdm_out bits n c d = 1 ↔ reversed_counter bits n c < d.
Proof.
  unfold pdm_out.
  destruct (Z.ltb_spec (reversed_counter bits n c) d); split; (done || lia).
Qed.

Lemma pdm_out_0 (bits n c d : Z) :
  pdm_out bits n c d = 0 ↔ d <= reversed_counter bits n c.
Proof.
  unfold pdm_out.
  destruct (Z.ltb_spec (reversed_counter bits n c) d); split; (done || lia).
Qed.

Lemma pdm_out_bit (bits n c d : Z) :
  pdm_out bits n c d = 0 ∨ pdm_out bits n c d = 1.
Proof. unfold pdm_out. destruct (_ <? _); auto. Qed.

Lemma asserted_pdm_out (bits n d : Z) (cs : list Z) :
  asserted ((λ c, pdm_out bits n c d) <$> cs)
  = length (filter (λ r, r < d) (reversed_counter bits n <$> cs)).
Proof.
  unfold asserted. rewrite !filter_fmap_length. f_equal.
  apply list_filter_iff. intros c. apply pdm_out_1.
Qed.

Lemma deasserted_pdm_out (bits n d : Z) (cs : list Z) :
  deasserted ((λ c, pdm_out bits n c d) <$> cs)
  = length (filter (λ r, d <= r) (reversed_counter bits n <$> cs)).
Proof.
  unfold deasserted. rewrite !filter_fmap_length. f_equal.
  apply list_filter_iff. intros c. apply pdm_out_0.
Qed.

(** One full period of counter values, in counting order. *)
Lemma asserted_full_period (bits n d : Z) :
  1 <= bits <= n → 0 <= d <= 2 ^ bits →
  asserted ((λ c, pdm_out bits n c d) <$> seqZ 0 (2 ^ bits)) = Z.to_nat d.
Proof.
  intros Hb Hd. rewrite asserted_pdm_out.
  rewrite (reversed_counter_perm bits n Hb). by apply below_count.
Qed.

(** ** The free running counter *)

Lemma counter_run_fmap (n c : Z) (k : nat) :
  0 <= c < 2 ^ n →
  counter_run n c k = (λ i : nat, (c + Z.of_nat i) `mod` 2 ^ n) <$> seq 0 k.
Proof.
  revert c. induction k as [|k IH]; intros c Hc; [done|].
  cbn [counter_run seq fmap list_fmap]. f_equal.
  - rewrite Z.add_0_r. by rewrite Z.mod_small.
  - rewrite IH by (apply Z.mod_pos_bound; lia).
    rewrite <- fmap_S_seq, <- list_fmap_compose. apply list_fmap_ext.
    intros _ i _. cbn. unfold counter_next.
    rewrite Zplus_mod_idemp_l. f_equal. lia.
Qed.

(** Any [2^bits] successive values of a counter at least [bits] wide
    have pairwise different low [bits] bits. *)
Lemma window_low_bits_perm (bits n c : Z) :
  1 <= bits <= n → 0 <= c < 2 ^ n →
  (λ x, x `mod` 2 ^ bits) <$> counter_run n c (Z.to_nat (2 ^ bits))
  ≡ₚ seqZ 0 (2 ^ bits).
Proof.
  intros Hb Hc. rewrite counter_run_fmap by done.
  rewrite <- list_fmap_compose.
  assert (Hpos : 0 < 2 ^ bits) by (apply Z.pow_pos_nonneg; lia).
  assert (Hlow : ∀ x, (x `mod` 2 ^ n) `mod` 2 ^ bits = x `mod` 2 ^ bits).
  { intros x. replace n with (bits + (n - bits)) by lia.
    rewrite Z.pow_add_r by lia.
    rewrite Z.rem_mul_r by lia.
    rewrite (Z.mul_comm (2 ^ bits)), Z_mod_plus_full.
    apply Z.mod_mod. lia. }
  apply submseteq_length_Permutation.
  - apply NoDup_submseteq.
    + apply NoDup_fmap_2_strong; [|apply NoDup_seq].
      intros i j Hi Hj. apply elem_of_seq in Hi. apply elem_of_seq in Hj.
      cbn. rewrite !Hlow. intros Heq.
      assert (Hd : (Z.of_nat i - Z.of_nat j) `mod` 2 ^ bits = 0).
      { replace (Z.of_nat i - Z.of_nat j)
          with ((c + Z.of_nat i) - (c + Z.of_nat j)) by lia.
        rewrite Zminus_mod, Heq, Z.sub_diag. apply Z.mod_0_l. lia. }
      apply Z.mod_divide in Hd; [|lia]. destruct Hd as [q Hq].
      assert (q = 0) by nia. lia.
    + intros x Hx. apply list_elem_of_fmap in Hx as (i & -> & _).
      apply elem_of_seqZ. cbn. rewrite Hlow.
      pose proof (Z.mod_pos_bound (c + Z.of_nat i) (2 ^ bits) Hpos). lia.
  - rewrite length_fmap, length_seq, length_seqZ. lia.
Qed.

(** Density over any window of one period. *)
Lemma window_density (bits n c d : Z) :
  1 <= bits <= n → 0 <= c < 2 ^ n → 0 <= d <= 2 ^ bits →
  asserted ((λ x, pdm_out bits n x d) <$> counter_run n c (Z.to_nat (2 ^ bits)))
  = Z.to_nat d.
Proof.
  intros Hb Hc Hd.
  transitivity
    (asserted ((λ x, pdm_out bits n x d) <$>
               ((λ x, x `mod` 2 ^ bits) <$> counter_run n c (Z.to_nat (2 ^ bits))))).
  - rewrite <- list_fmap_compose. f_equal. apply list_fmap_ext.
    intros _ x _. cbn. unfold pdm_out. by rewrite reversed_counter_mod.
  - rewrite asserted_pdm_out, (window_low_bits_perm bits n c Hb Hc).
    rewrite <- asserted_pdm_out. by apply asserted_full_period.
Qed.

(** ** The per-cycle output function *)

(** C1: for [bits >= 1], a counter value [c] and a duty [d] in
    [0, 2^bits), the comparator yields 1 exactly when the bit reversal of
    [c] is below [d], and 0 otherwise; bit [i] of the reversal is bit
    [bits-1-i] of [c] and there is no bit above.  The output is a
    function of [(c, d)] alone, whatever the width [n >= bits] of the
    counter. *)
Theorem pdm_out_bitreverse (bits n c d : Z) :
  1 <= bits <= n → 0 <= c < 2 ^ bits → 0 <= d < 2 ^ bits →
  (pdm_out bits n c d = 1 ↔ bitreverse c bits < d) ∧
  (pdm_out bits n c d = 0 ↔ ¬ bitreverse c bits < d) ∧
  (∀ i, 0 <= i < bits →
        Z.testbit (bitreverse c bits) i = Z.testbit c (bits - 1 - i)) ∧
  (∀ i, bits <= i → Z.testbit (bitreverse c bits) i = false).
Proof.
  intros Hb Hc Hd.
  rewrite <- (reversed_counter_bitreverse bits n c Hb).
  split; [apply pdm_out_1|]. split; [rewrite pdm_out_0; lia|]. split.
  - intros i Hi. rewrite reversed_counter_testbit by done.
    by rewrite decide_True.
  - intros i Hi. rewrite reversed_counter_testbit by done.
    by rewrite decide_False by lia.
Qed.

Lemma pdm_out_bitreverse_witness :
  (1 <= 3 <= 3 ∧ 0 <= 6 < 2 ^ 3 ∧ 0 <= 4 < 2 ^ 3) ∧
  (pdm_out 3 3 6 4 = 1 ↔ bitreverse 6 3 < 4) ∧
  (pdm_out 3 3 6 4 = 0 ↔ ¬ bitreverse 6 3 < 4) ∧
  (∀ i, 0 <= i < 3 → Z.testbit (bitreverse 6 3) i = Z.testbit 6 (3 - 1 - i)) ∧
  (∀ i, 3 <= i → Z.testbit (bitreverse 6 3) i = false).
Proof.
  split; [lia|]. apply (pdm_out_bitreverse 3 3 6 4); lia.
Defined.

(** C2: for a duty [d] in [0, 2^bits), over any [2^bits] consecutive
    cycles of the free running counter (of width [n >= bits], started
    anywhere) the output is asserted in exactly [d] of them. *)
Theorem pdm_density (bits n c d : Z) :
  1 <= bits <= n → 0 <= c < 2 ^ n → 0 <= d < 2 ^ bits →
  asserted ((λ x, pdm_out bits n x d) <$> counter_run n c (Z.to_nat (2 ^ bits)))
  = Z.to_nat d.
Proof. intros Hb Hc Hd. apply window_density; lia. Qed.

Lemma pdm_density_witness :
  (1 <= 3 <= 3 ∧ 0 <= 5 < 2 ^ 3 ∧ 0 <= 3 < 2 ^ 3) ∧
  asserted ((λ x, pdm_out 3 3 x 3) <$> counter_run 3 5 (Z.to_nat (2 ^ 3)))
  = Z.to_nat 3.
Proof.
  split; [lia|]. apply (pdm_density 3 3 5 3); lia.
Defined.

(** C3: with duty 0 the comparator yields 0 for every counter value. *)
Theorem duty_zero_silent (bits n c : Z) : pdm_out bits n c 0 = 0.
Proof. apply pdm_out_0, reversed_counter_nonneg. Qed.

(** C4: with duty [2^bits - 1] the comparator yields 0 for exactly one
    counter value of the period, namely [2^bits - 1]. *)
Theorem duty_max_one_low (bits n : Z) :
  1 <= bits <= n →
  (∀ c, 0 <= c < 2 ^ bits →
        (pdm_out bits n c (2 ^ bits - 1) = 0 ↔ c = 2 ^ bits - 1)) ∧
  deasserted ((λ c, pdm_out bits n c (2 ^ bits - 1)) <$> seqZ 0 (2 ^ bits))
  = 1%nat.
Proof.
  intros Hb.
  assert (Hpos : 0 < 2 ^ bits) by (apply Z.pow_pos_nonneg; lia).
  split.
  - intros c Hc. rewrite pdm_out_0.
    pose proof (reversed_counter_range bits n c Hb) as Hr. split.
    + intros Hge.
      rewrite <- (reversed_counter_involutive bits n Hb c Hc).
      replace (reversed_counter bits n c) with (2 ^ bits - 1) by lia.
      by apply reversed_counter_ones.
    + intros ->. rewrite reversed_counter_ones by done. lia.
  - rewrite deasserted_pdm_out, (reversed_counter_perm bits n Hb).
    rewrite above_count by lia. lia.
Qed.

Lemma duty_max_one_low_witness :
  1 <= 3 <= 3 ∧
  (∀ c, 0 <= c < 2 ^ 3 → (pdm_out 3 3 c (2 ^ 3 - 1) = 0 ↔ c = 2 ^ 3 - 1)) ∧
  deasserted ((λ c, pdm_out 3 3 c (2 ^ 3 - 1)) <$> seqZ 0 (2 ^ 3)) = 1%nat.
Proof.
  split; [lia|]. apply (duty_max_one_low 3 3); lia.
Defined.

(** ** The constructor, stage by stage *)

Lemma Signal_new_Ok name w v rl :
  1 <= w → Signal_new name w (ResetInt v) rl = Ok (mkSignal name w v rl).
Proof.
  intros Hw. unfold Signal_new, Constant_new.
  destruct (Z.leb_spec w 0); [lia|done].
Qed.

Lemma Signal_new_const_Ok name w v rl :
  1 <= w → Signal_new name w (ResetConst v) rl = Ok (mkSignal name w v rl).
Proof.
  intros Hw. unfold Signal_new. cbn.
  destruct (Z.leb_spec w 0); [lia|done].
Qed.

(** With an integer reset, a width that is not positive is caught by
    the [Constant], before the signal's own check. *)
Lemma Signal_new_Raise name w v rl :
  w <= 0 →
  Signal_new name w (ResetInt v) rl
  = Raise (TypeError "Width must be a strictly positive integer").
Proof.
  intros Hw. unfold Signal_new, Constant_new.
  destruct (Z.leb_spec w 0); [done|lia].
Qed.

(** Attribute lookups through a chain of [setattr]. *)
Ltac attr_lookup :=
  repeat first [ rewrite lookup_insert_eq
               | rewrite lookup_insert_ne by done
               | rewrite lookup_empty ].

(** The comparison [getattr(self.sync, "clock_domains") == "sys"] of
    [add_csr] is false for every domain name: the left side is a domain
    handle, the right side a string. *)
Lemma sync_getattr_never_str (name s : string) :
  py_eq (sync_getattr name) (PyStr s) = false.
Proof. reflexivity. Qed.

Lemma add_csr_Ok (self : PDM) (w dd : Z) :
  1 <= w →
  attrs self !! "duty" = Some (PySignal (duty_sig w dd)) →
  attrs self !! "bits" = Some (PyInt w) →
  add_csr self
  = Ok (add_specials
          (setattr (setattr (setattr self "_duty_csr" (PySignal (duty_sig w dd)))
                            "duty" PyNone)
                   "_duty" (PyCSRStorage w (storage_sig w dd)))
          [MultiReg (storage_sig w dd) (duty_sig w dd) 2]).
Proof.
  intros Hw Hd Hb. unfold add_csr, getattr. rewrite Hd. cbn.
  attr_lookup. rewrite Hb. cbn. attr_lookup. cbn.
  unfold CSRStorage, Signal_new. cbn.
  destruct (Z.leb_spec w 0); [lia|]. reflexivity.
Qed.

Lemma init_out_eq self out :
  init_out self out
  = Ok (match out with
        | None => setattr self "out" (PySignal out_sig)
        | Some _ => self
        end, default out_sig out).
Proof. by destruct out. Qed.

Lemma init_duty_Bits self w dd with_csr :
  1 <= w →
  init_duty self (Bits w) dd with_csr
  = let self1 := setattr (setattr self "bits" (PyInt w)) "duty"
                         (PySignal (duty_sig w dd)) in
    Ok (if with_csr
        then add_specials
          (setattr (setattr (setattr self1 "_duty_csr" (PySignal (duty_sig w dd)))
                            "duty" PyNone)
                   "_duty" (PyCSRStorage w (storage_sig w dd)))
          [MultiReg (storage_sig w dd) (duty_sig w dd) 2]
        else self1, w, duty_sig w dd).
Proof.
  intros Hw. unfold init_duty. rewrite Signal_new_Ok by done. cbn.
  destruct with_csr; [|done].
  rewrite (add_csr_Ok _ w dd) by (done || (cbn; attr_lookup; done)). done.
Qed.

Lemma init_duty_Bits_Raise self w dd with_csr :
  w <= 0 →
  init_duty self (Bits w) dd with_csr
  = Raise (TypeError "Width must be a strictly positive integer").
Proof. intros Hw. unfold init_duty. by rewrite Signal_new_Raise. Qed.

Lemma init_counter_owned self bits :
  1 <= bits →
  init_counter self bits PyNone
  = Ok (add_sync (setattr self "counter" (PySignal (counter_sig bits)))
                 [SIncr (counter_sig bits)], counter_sig bits).
Proof. intros Hb. unfold init_counter. by rewrite Signal_new_Ok. Qed.

Lemma init_compare_Ok self bits c d o :
  1 <= bits <= nbits c →
  init_compare self bits c d o
  = Ok (add_sync self [SIfLt c (rev_taps bits) d o]).
Proof. intros Hb. unfold init_compare. by rewrite reversed_taps_ok. Qed.

(** ** What a successful construction looks like *)

Lemma bind_Ok {A B} (m : result A) (f : A → result B) (b : B) :
  m ≫= f = Ok b → ∃ a, m = Ok a ∧ f a = Ok b.
Proof. destruct m as [a|e]; cbn; [eauto|done]. Qed.

Lemma init_duty_inv self bod dd with_csr self' bits d :
  init_duty self bod dd with_csr = Ok (self', bits, d) →
  bits = bits_of bod ∧ d = duty_of bod dd ∧
  match bod with
  | Duty _ =>
      dd = 0 ∧ with_csr = false ∧ self' = setattr self "duty" (PySignal d)
  | Bits w =>
      1 <= w ∧
      let self1 := setattr (setattr self "bits" (PyInt w)) "duty" (PySignal d) in
      self' = if with_csr
              then add_specials
                     (setattr (setattr (setattr self1 "_duty_csr" (PySignal d))
                                       "duty" PyNone)
                              "_duty" (PyCSRStorage w (storage_sig w dd)))
                     [MultiReg (storage_sig w dd) d 2]
              else self1
  end.
Proof.
  destruct bod as [w|s].
  - destruct (Z.le_gt_cases w 0) as [Hw|Hw].
    + by rewrite init_duty_Bits_Raise.
    + rewrite init_duty_Bits by lia. cbn. intros [= <- <- <-].
      repeat split; try done. lia.
  - unfold init_duty. case_bool_decide as Hdd; [done|].
    destruct with_csr; [done|]. cbn. intros [= <- <- <-].
    repeat split; try done.
Qed.

Lemma init_counter_inv self bits counter self' c :
  init_counter self bits counter = Ok (self', c) →
  (counter = PyNone ∧ 1 <= bits ∧ c = counter_sig bits ∧
   self' = add_sync (setattr self "counter" (PySignal c)) [SIncr c])
  ∨ (counter = PySignal c ∧ bits <= nbits c ∧
     self' = setattr self "counter" (PySignal c)).
Proof.
  destruct counter as [|z|s|c'|sz st|cd|k]; try done.
  - destruct (Z.le_gt_cases bits 0) as [Hw|Hw].
    + unfold init_counter. by rewrite Signal_new_Raise.
    + rewrite init_counter_owned by lia. intros [= <- <-]. left.
      repeat split; try done. lia.
  - unfold init_counter. destruct (Z.ltb_spec (nbits c') bits); [done|].
    cbn. intros [= <- <-]. right. done.
Qed.

Lemma init_compare_inv self bits c d o p :
  init_compare self bits c d o = Ok p →
  ∃ taps, reversed_taps bits (nbits c) = Some taps ∧
          p = add_sync self [SIfLt c taps d o].
Proof.
  unfold init_compare. destruct (reversed_taps bits (nbits c)) as [taps|]; [|done].
  cbn. intros [= <-]. eauto.
Qed.

Lemma PDM_init_inv out bod dd counter with_csr p :
  PDM_init out bod dd counter with_csr = Ok p →
  ∃ self1 self2 self3 c taps,
    init_out new_module out = Ok (self1, out_of out) ∧
    init_duty self1 bod dd with_csr = Ok (self2, bits_of bod, duty_of bod dd) ∧
    init_counter self2 (bits_of bod) counter = Ok (self3, c) ∧
    reversed_taps (bits_of bod) (nbits c) = Some taps ∧
    p = add_sync self3 [SIfLt c taps (duty_of bod dd) (out_of out)].
Proof.
  unfold PDM_init. rewrite init_out_eq. cbn.
  intros H. apply bind_Ok in H as ([[self2 bits] d] & Hd & H).
  apply bind_Ok in H as ([self3 c] & Hc & H).
  apply init_compare_inv in H as (taps & Ht & ->).
  pose proof (init_duty_inv _ _ _ _ _ _ _ Hd) as (-> & -> & _).
  do 5 eexists. split; [reflexivity|]. split; [exact Hd|].
  split; [exact Hc|]. split; [exact Ht|reflexivity].
Qed.

Ltac init_inversion H :=
  let self1 := fresh "self1" in
  let self2 := fresh "self2" in
  let self3 := fresh "self3" in
  let Ho := fresh "Ho" in
  let Hd := fresh "Hd" in
  let Hc := fresh "Hc" in
  apply PDM_init_inv in H
    as (self1 & self2 & self3 & ?c & ?taps & Ho & Hd & Hc & ?Htaps & ->);
  rewrite init_out_eq in Ho; injection Ho as <-;
  apply init_duty_inv in Hd as (_ & _ & Hd);
  apply init_counter_inv in Hc as [(-> & ?Hbits & -> & ->)|(-> & ?Hbits & ->)].

Lemma PDM_init_specials out bod dd counter with_csr p :
  PDM_init out bod dd counter with_csr = Ok p →
  specials p = if with_csr
               then [MultiReg (storage_sig (bits_of bod) dd) (duty_of bod dd) 2]
               else [].
Proof.
  intros H. init_inversion H.
  all: destruct bod as [w|d]; [destruct Hd as [_ ->]|destruct Hd as (_ & -> & ->)].
  all: destruct out; try destruct with_csr; done.
Qed.

Lemma PDM_init_sync out bod dd counter with_csr p :
  PDM_init out bod dd counter with_csr = Ok p →
  ∃ c taps,
    reversed_taps (bits_of bod) (nbits c) = Some taps ∧
    ((counter = PyNone ∧ 1 <= bits_of bod ∧ c = counter_sig (bits_of bod) ∧
      sync p = [SIncr c; SIfLt c taps (duty_of bod dd) (out_of out)])
     ∨ (counter = PySignal c ∧ bits_of bod <= nbits c ∧
        sync p = [SIfLt c taps (duty_of bod dd) (out_of out)])).
Proof.
  intros H. init_inversion H.
  all: eexists _, taps; split; [exact Htaps|].
  all: destruct bod as [w|d]; [destruct Hd as [_ ->]|destruct Hd as (_ & -> & ->)].
  all: destruct out; try destruct with_csr; try done; cbn; eauto 10.
Qed.

Lemma PDM_init_config out bod dd counter with_csr p :
  PDM_init out bod dd counter with_csr = Ok p →
  match bod with
  | Bits w => 1 <= w
  | Duty _ => dd = 0 ∧ with_csr = false
  end.
Proof.
  intros H. init_inversion H.
  all: destruct bod as [w|d]; [by destruct Hd|by destruct Hd as (? & ? & _)].
Qed.

Lemma PDM_init_attrs out bod dd counter with_csr p :
  PDM_init out bod dd counter with_csr = Ok p →
  attrs p !! "out" = match out with
                     | None => Some (PySignal out_sig)
                     | Some _ => None
                     end ∧
  attrs p !! "bits" = match bod with
                      | Bits w => Some (PyInt w)
                      | Duty _ => None
                      end ∧
  attrs p !! "duty"
  = Some (if with_csr then PyNone else PySignal (duty_of bod dd)) ∧
  attrs p !! "_duty_csr"
  = (if with_csr then Some (PySignal (duty_of bod dd)) else None) ∧
  attrs p !! "_duty"
  = (if with_csr
     then Some (PyCSRStorage (bits_of bod) (storage_sig (bits_of bod) dd))
     else None) ∧
  attrs p !! "counter" = Some (PySignal match counter with
                                        | PySignal c => c
                                        | _ => counter_sig (bits_of bod)
                                        end).
Proof.
  intros H. init_inversion H.
  all: destruct bod as [w|d]; [destruct Hd as [_ ->]|destruct Hd as (_ & -> & ->)].
  all: destruct out; try destruct with_csr; cbn; attr_lookup; done.
Qed.

(** ** One clock edge *)

Lemma upd_eq σ x v : upd σ x v x = v.
Proof. unfold upd. by rewrite decide_True. Qed.

Lemma upd_ne σ x y v : x ≠ y → upd σ x v y = σ y.
Proof. intros. unfold upd. by rewrite decide_False. Qed.

Lemma assign_eq s v σ : assign s v σ (sname s) = v `mod` 2 ^ nbits s.
Proof. apply upd_eq. Qed.

Lemma assign_ne s v σ y : sname s ≠ y → assign s v σ y = σ y.
Proof. apply upd_ne. Qed.

Lemma tick_unfold p rst σ :
  tick p rst σ
  = settle p
      (foldl (exec_special σ)
             (if rst then foldl apply_reset (foldl (exec_stmt σ) σ (sync p)) (sync p)
              else foldl (exec_stmt σ) σ (sync p))
             (specials p)).
Proof. reflexivity. Qed.

Lemma exec_stmts_frame (σ σa : store) (l : list Stmt) (x : sig_name) :
  Forall (λ st, sname (target st) ≠ x) l →
  foldl (exec_stmt σ) σa l x = σa x.
Proof.
  intros Hs. revert σa. induction Hs as [|st l Hx _ IH]; intros σa; [done|].
  cbn [foldl]. rewrite IH. destruct st; by apply assign_ne.
Qed.

Lemma apply_resets_frame (σa : store) (l : list Stmt) (x : sig_name) :
  Forall (λ st, sname (target st) ≠ x) l →
  foldl apply_reset σa l x = σa x.
Proof.
  intros Hs. revert σa. induction Hs as [|st l Hx _ IH]; intros σa; [done|].
  cbn [foldl]. rewrite IH. unfold apply_reset.
  destruct (reset_less (target st)); [done|]. by apply assign_ne.
Qed.

Lemma settle_frame (sp : list Special) (σ : store) (x : sig_name) :
  Forall (λ s, match s with MultiReg _ o' _ => sname o' ≠ x end) sp →
  foldl settle_special σ sp x = σ x.
Proof.
  intros Hne. revert σ.
  induction Hne as [|[i o' n] sp Hx _ IH]; intros σ; [done|].
  cbn [foldl]. rewrite IH. cbn [settle_special]. by apply upd_ne.
Qed.

(** A signal that is neither a synchronizer stage nor a synchronizer
    output keeps the value the clocked statements gave it. *)
Lemma specials_frame (σ σa : store) (sp : list Special) (x : sig_name) :
  (∀ k, x ≠ Stage k) →
  Forall (λ s, match s with MultiReg _ o' _ => sname o' ≠ x end) sp →
  foldl settle_special (foldl (exec_special σ) σa sp) sp x = σa x.
Proof.
  intros Hst Hne.
  assert (H3 : ∀ σb, foldl (exec_special σ) σb sp x = σb x).
  { clear Hne. induction sp as [|[i o' n] sp IH]; intros σb; [done|].
    cbn [foldl]. rewrite IH. cbn [exec_special].
    generalize (seq 0 n). intros l. revert σb.
    induction l as [|k l IHl]; intros σb; [done|].
    cbn [foldl]. rewrite IHl. apply upd_ne. by apply not_eq_sym. }
  rewrite <- (H3 σa). clear H3.
  generalize (foldl (exec_special σ) σa sp). intros σ3. revert σ3.
  induction Hne as [|[i o' n] sp Hx _ IH]; intros σ3; [done|].
  cbn [foldl]. rewrite IH. cbn [settle_special]. by apply upd_ne.
Qed.

(** A signal no statement assigns and no synchronizer drives keeps its
    value over a clock edge. *)
Lemma tick_untouched (p : PDM) (rst : bool) (σ : store) (x : sig_name) :
  (∀ k, x ≠ Stage k) →
  Forall (λ s, match s with MultiReg _ o' _ => sname o' ≠ x end) (specials p) →
  Forall (λ st, sname (target st) ≠ x) (sync p) →
  tick p rst σ x = σ x.
Proof.
  intros Hst Hsp Hs. rewrite tick_unfold. unfold settle.
  rewrite specials_frame by done.
  destruct rst; [rewrite apply_resets_frame by done|]; by apply exec_stmts_frame.
Qed.

(** Value of the comparator's target after one clock edge. *)
Lemma tick_out (p : PDM) (pre : list Stmt) c taps d o rst σ :
  sync p = pre ++ [SIfLt c taps d o] →
  Forall (λ st, sname (target st) ≠ sname o) pre →
  Forall (λ s, match s with MultiReg _ o' _ => sname o' ≠ sname o end)
         (specials p) →
  (∀ k, sname o ≠ Stage k) →
  tick p rst σ (sname o)
  = if rst && negb (reset_less o) then reset o `mod` 2 ^ nbits o
    else (if eval_taps taps (σ (sname c)) <? σ (sname d) then 1 else 0)
           `mod` 2 ^ nbits o.
Proof.
  intros Hs Hpre Hne Hst. rewrite tick_unfold. unfold settle.
  rewrite specials_frame by done. rewrite Hs, !foldl_app.
  cbn [foldl exec_stmt].
  destruct rst; cbn [andb]; [|apply assign_eq].
  unfold apply_reset at 1. cbn [target].
  destruct (reset_less o); cbn [negb]; [|apply assign_eq].
  rewrite apply_resets_frame by done. apply assign_eq.
Qed.

Ltac store_eval :=
  unfold assign, upd; cbn [sname nbits reset reset_less];
  repeat case_decide; try congruence; try done.

(** The owned counter after one clock edge, reset or not. *)
Lemma tick_counter (p : PDM) c taps d o rst σ :
  sync p = [SIncr c; SIfLt c taps d o] →
  reset_less c = true →
  sname o ≠ sname c →
  (∀ k, sname c ≠ Stage k) →
  Forall (λ s, match s with MultiReg _ o' _ => sname o' ≠ sname c end) (specials p) →
  tick p rst σ (sname c) = counter_next (nbits c) (σ (sname c)).
Proof.
  intros Hs Hrl Hoc Hst Hsp. rewrite tick_unfold. unfold settle.
  rewrite specials_frame by done. rewrite Hs.
  cbn [foldl exec_stmt]. unfold apply_reset. cbn [target]. rewrite Hrl.
  destruct rst, (reset_less o); unfold counter_next; store_eval.
Qed.

(** With the CSR, the duty signal after a clock edge is the first
    synchronizer stage before it, whatever the duty signal held. *)
Lemma tick_duty_csr (p : PDM) st d rst σ :
  specials p = [MultiReg st d 2] →
  tick p rst σ (sname d) = σ (Stage 0).
Proof.
  intros Hsp. rewrite tick_unfold. unfold settle. rewrite Hsp.
  cbn [foldl exec_special settle_special seq]. store_eval.
Qed.

Lemma tick_stage0 (p : PDM) st d rst σ :
  specials p = [MultiReg st d 2] →
  (∀ k, sname d ≠ Stage k) →
  tick p rst σ (Stage 0) = σ (sname st).
Proof.
  intros Hsp Hd. rewrite tick_unfold. unfold settle. rewrite Hsp.
  cbn [foldl exec_special settle_special seq].
  pose proof (Hd 0%nat). store_eval.
Qed.

(** With the CSR, a value in the storage reaches the comparator's duty
    after two clock edges. *)
Lemma tick_duty_csr_two_edges (p : PDM) st d rst rst' σ :
  specials p = [MultiReg st d 2] →
  (∀ k, sname d ≠ Stage k) →
  tick p rst' (tick p rst σ) (sname d) = σ (sname st).
Proof.
  intros Hsp Hd. rewrite (tick_duty_csr p st d rst' _ Hsp).
  by apply (tick_stage0 p st d).
Qed.

(** ** The constructed module at run time *)

Lemma supplied_name s x :
  supplied s → (∀ k, x ≠ External k) → sname s ≠ x.
Proof.
  intros [He _] Hx. unfold is_external in He.
  destruct (sname s) as [k| |]; [|done..]. apply not_eq_sym, Hx.
Qed.

Lemma out_of_name out x :
  (∀ o, out = Some o → supplied o) →
  (∀ k, x ≠ External k) → x ≠ Internal "out" → sname (out_of out) ≠ x.
Proof.
  intros Ho Hx Hi. destruct out as [o|]; cbn.
  - apply supplied_name; auto.
  - by apply not_eq_sym.
Qed.

Lemma out_of_width out :
  (∀ o, out = Some o → supplied o) → 1 <= nbits (out_of out).
Proof. intros Ho. destruct out as [o|]; cbn; [by apply Ho|lia]. Qed.

Lemma bit_mod (b w : Z) : 1 <= w → (b = 0 ∨ b = 1) → b `mod` 2 ^ w = b.
Proof.
  intros Hw Hb. apply Z.mod_small.
  assert (2 ^ 1 <= 2 ^ w) by (apply Z.pow_le_mono_r; lia). lia.
Qed.

Lemma PDM_init_specials_frame out bod dd counter with_csr p x :
  PDM_init out bod dd counter with_csr = Ok p →
  (x ≠ Internal "duty") →
  Forall (λ s, match s with MultiReg _ o' _ => sname o' ≠ x end) (specials p).
Proof.
  intros H Hx. rewrite (PDM_init_specials _ _ _ _ _ _ H).
  pose proof (PDM_init_config _ _ _ _ _ _ H) as Hc.
  destruct with_csr; [|constructor].
  destruct bod as [w|d]; [|by destruct Hc].
  repeat constructor. cbn. by apply not_eq_sym.
Qed.

(** [out] after a clock edge without reset, for any constructed module. *)
Lemma PDM_tick_out out bod dd counter with_csr p :
  (∀ o, out = Some o → supplied o) →
  PDM_init out bod dd counter with_csr = Ok p →
  ∃ c taps,
    last (sync p) = Some (SIfLt c taps (duty_of bod dd) (out_of out)) ∧
    reversed_taps (bits_of bod) (nbits c) = Some taps ∧
    attrs p !! "counter" = Some (PySignal c) ∧
    ∀ σ, tick p false σ (sname (out_of out))
         = pdm_out (bits_of bod) (nbits c)
                   (σ (sname c)) (σ (sname (duty_of bod dd))).
Proof.
  intros Ho H.
  pose proof (PDM_init_specials_frame _ _ _ _ _ _ (sname (out_of out)) H) as Hsp.
  pose proof (PDM_init_attrs _ _ _ _ _ _ H) as (_ & _ & _ & _ & _ & Hattr).
  destruct (PDM_init_sync _ _ _ _ _ _ H)
    as (c & taps & Htaps & [(Hcn & Hb & Hc & Hs)|(Hcn & Hb & Hs)]).
  all: exists c, taps; rewrite Hs; subst counter.
  all: split; [done|]; split; [done|]; split; [by rewrite Hattr, ?Hc|]; intros σ.
  - rewrite (tick_out p [SIncr c] _ _ _ _ _ _ Hs).
    + cbn [andb]. rewrite (eval_reversed_taps _ _ _ _ Htaps).
      apply bit_mod; [by apply out_of_width|apply pdm_out_bit].
    + repeat constructor. rewrite Hc. cbn. apply not_eq_sym. by apply out_of_name.
    + apply Hsp. by apply out_of_name.
    + intros k. by apply out_of_name.
  - rewrite (tick_out p [] _ _ _ _ _ _ Hs).
    + cbn [andb]. rewrite (eval_reversed_taps _ _ _ _ Htaps).
      apply bit_mod; [by apply out_of_width|apply pdm_out_bit].
    + constructor.
    + apply Hsp. by apply out_of_name.
    + intros k. by apply out_of_name.
Qed.

Lemma owned_counter_tick out bod dd with_csr p :
  (∀ o, out = Some o → supplied o) →
  PDM_init out bod dd PyNone with_csr = Ok p →
  attrs p !! "counter" = Some (PySignal (counter_sig (bits_of bod))) ∧
  ∀ rst σ, tick p rst σ (Internal "counter")
           = counter_next (bits_of bod) (σ (Internal "counter")).
Proof.
  intros Ho H.
  pose proof (PDM_init_specials_frame _ _ _ _ _ _ (Internal "counter") H) as Hsp.
  pose proof (PDM_init_attrs _ _ _ _ _ _ H) as (_ & _ & _ & _ & _ & Hattr).
  destruct (PDM_init_sync _ _ _ _ _ _ H)
    as (c' & taps & Htaps & [(_ & Hb & -> & Hs)|(? & _)]); [|done].
  split; [done|]. intros rst σ.
  change (Internal "counter") with (sname (counter_sig (bits_of bod))).
  rewrite (tick_counter p _ _ _ _ rst σ Hs); [done|done| |done|by apply Hsp].
  by apply out_of_name.
Qed.

(** The registered output follows the comparator one cycle behind the
    free running counter. *)
Lemma out_trace_owned out bod dd p :
  (∀ o, out = Some o → supplied o) →
  (∀ d, bod = Duty d → supplied d) →
  sname (duty_of bod dd) ≠ sname (out_of out) →
  PDM_init out bod dd PyNone false = Ok p →
  ∀ k σ,
    out_trace p (out_of out) k σ
    = (λ c, pdm_out (bits_of bod) (bits_of bod) c (σ (sname (duty_of bod dd))))
        <$> counter_run (bits_of bod) (σ (Internal "counter")) k.
Proof.
  intros Ho Hd Hdo H.
  destruct (PDM_tick_out _ _ _ _ _ _ Ho H) as (c & taps & _ & _ & Hattr & Hout).
  destruct (owned_counter_tick _ _ _ _ _ Ho H) as (Hc & Hcnt).
  rewrite Hattr in Hc. injection Hc as ->.
  assert (Hduty : ∀ σ, tick p false σ (sname (duty_of bod dd))
                       = σ (sname (duty_of bod dd))).
  { intros σ. apply tick_untouched.
    - intros k. destruct bod as [w|d]; cbn; [done|].
      apply supplied_name; [by apply Hd|done].
    - rewrite (PDM_init_specials _ _ _ _ _ _ H). constructor.
    - destruct (PDM_init_sync _ _ _ _ _ _ H)
        as (c' & taps' & _ & [(_ & _ & -> & ->)|(? & _)]); [|done].
      repeat constructor; cbn; [|by apply not_eq_sym].
      destruct bod as [w|d]; cbn; [done|].
      apply not_eq_sym, supplied_name; [by apply Hd|done]. }
  induction k as [|k IH]; intros σ; [done|].
  cbn [out_trace counter_run fmap list_fmap]. f_equal.
  - apply Hout.
  - rewrite IH, Hduty. do 2 f_equal. apply Hcnt.
Qed.

(** Density on the running module: with a steady duty, [out] is
    asserted on exactly [duty] of any [2^bits] consecutive cycles. *)
Lemma pdm_density_trace out bod dd p σ :
  (∀ o, out = Some o → supplied o) →
  (∀ d, bod = Duty d → supplied d) →
  sname (duty_of bod dd) ≠ sname (out_of out) →
  PDM_init out bod dd PyNone false = Ok p →
  0 <= σ (Internal "counter") < 2 ^ bits_of bod →
  0 <= σ (sname (duty_of bod dd)) < 2 ^ bits_of bod →
  asserted (out_trace p (out_of out) (Z.to_nat (2 ^ bits_of bod)) σ)
  = Z.to_nat (σ (sname (duty_of bod dd))).
Proof.
  intros Ho Hd Hdo H Hc Hdv.
  rewrite (out_trace_owned _ _ _ _ Ho Hd Hdo H).
  apply window_density; [|done|lia].
  destruct (PDM_init_sync _ _ _ _ _ _ H)
    as (c' & taps' & _ & [(_ & ? & _)|(? & _)]); [lia|done].
Qed.

(** ** Properties of the constructor and of the running module *)

(** C5: when the generator owns its counter ([counter] omitted), the
    [counter] attribute is a signal of width [bits] whose reset value is
    0 and which holds 0 at power-up; every clock edge adds 1 modulo
    [2^bits], so that [2^bits - 1] is followed by 0.  The counter is
    [reset_less]: an edge under the domain reset counts like any other. *)
Theorem owned_counter_free_running out bod dd with_csr p :
  (∀ o, out = Some o → supplied o) →
  PDM_init out bod dd PyNone with_csr = Ok p →
  let bits := bits_of bod in
  let c := counter_sig bits in
  attrs p !! "counter" = Some (PySignal c) ∧
  nbits c = bits ∧
  reset c = 0 ∧
  power_up p (sname c) = 0 ∧
  (∀ rst σ, tick p rst σ (sname c) = (σ (sname c) + 1) `mod` 2 ^ bits) ∧
  (∀ rst σ, σ (sname c) = 2 ^ bits - 1 → tick p rst σ (sname c) = 0).
Proof.
  intros Ho H. cbv zeta.
  destruct (owned_counter_tick _ _ _ _ _ Ho H) as (Hattr & Htick).
  split; [done|]. split; [done|]. split; [done|]. split; [|split].
  - pose proof (PDM_init_specials_frame _ _ _ _ _ _ (Internal "counter") H)
      as Hsp.
    destruct (PDM_init_sync _ _ _ _ _ _ H)
      as (c' & taps & _ & [(_ & _ & -> & Hs)|(? & _)]); [|done].
    unfold power_up, settle. rewrite settle_frame by (by apply Hsp).
    unfold signals. rewrite Hs. cbn. apply upd_eq.
  - intros rst σ. apply Htick.
  - intros rst σ Hmax. cbn [sname counter_sig] in *. rewrite Htick, Hmax.
    unfold counter_next.
    replace (2 ^ bits_of bod - 1 + 1) with (2 ^ bits_of bod) by lia.
    apply Z.mod_same. apply Z.pow_nonzero; [lia|].
    destruct (PDM_init_sync _ _ _ _ _ _ H)
      as (c' & taps & _ & [(_ & ? & _)|(? & _)]); [lia|done].
Qed.

Lemma owned_counter_free_running_witness :
  ∃ p, PDM_init None (Bits 8) 0 PyNone false = Ok p ∧
       power_up p (Internal "counter") = 0 ∧
       ∀ rst σ, σ (Internal "counter") = 2 ^ 8 - 1 →
                tick p rst σ (Internal "counter") = 0.
Proof.
  destruct (PDM_init None (Bits 8) 0 PyNone false) as [p|e] eqn:E;
    [|vm_compute in E; discriminate E].
  exists p. split; [reflexivity|].
  destruct (owned_counter_free_running None (Bits 8) 0 false p)
    as (_ & _ & _ & Hp & _ & Hw); [discriminate|exact E|].
  split; [exact Hp|exact Hw].
Defined.

(** C6: with an externally supplied duty signal the constructor raises
    [ValueError] when [default_duty] is non-zero, and raises [ValueError]
    when [with_csr] is set; the error is the result of the construction,
    so no module exists that could fail later. *)
Theorem external_duty_conflicts out d dd counter with_csr :
  (dd ≠ 0 →
   PDM_init out (Duty d) dd counter with_csr
   = Raise (ValueError "default_duty can not be set when external duty is supplied")) ∧
  (dd = 0 → with_csr = true →
   PDM_init out (Duty d) dd counter with_csr
   = Raise (ValueError "with_csr can not be set when external duty is supplied")) ∧
  (dd ≠ 0 ∨ with_csr = true →
   ∃ msg, PDM_init out (Duty d) dd counter with_csr = Raise (ValueError msg)).
Proof.
  assert (H1 : dd ≠ 0 →
    PDM_init out (Duty d) dd counter with_csr
    = Raise (ValueError "default_duty can not be set when external duty is supplied")).
  { intros Hdd. unfold PDM_init. rewrite init_out_eq. cbn.
    by rewrite bool_decide_true. }
  assert (H2 : dd = 0 → with_csr = true →
    PDM_init out (Duty d) dd counter with_csr
    = Raise (ValueError "with_csr can not be set when external duty is supplied")).
  { intros -> ->. unfold PDM_init. rewrite init_out_eq. done. }
  split; [done|]. split; [done|].
  intros [Hdd|Hcsr].
  - eexists. by apply H1.
  - destruct (decide (dd = 0)) as [Hz|Hnz]; eexists; [by apply H2|by apply H1].
Qed.

Lemma external_duty_conflicts_witness :
  PDM_init None (Duty (sig8 0)) 5 PyNone false
  = Raise (ValueError "default_duty can not be set when external duty is supplied") ∧
  PDM_init None (Duty (sig8 0)) 0 PyNone true
  = Raise (ValueError "with_csr can not be set when external duty is supplied").
Proof.
  split.
  - apply (external_duty_conflicts None (sig8 0) 5 PyNone false). lia.
  - apply (external_duty_conflicts None (sig8 0) 0 PyNone true); reflexivity.
Defined.

Lemma init_duty_exn self bod dd with_csr :
  (∀ w, bod = Bits w → 1 <= w) →
  (∃ r, init_duty self bod dd with_csr = Ok r) ∨
  (∃ msg, init_duty self bod dd with_csr = Raise (ValueError msg)).
Proof.
  intros Hw. destruct bod as [w|d].
  - left. rewrite init_duty_Bits by (by apply Hw). eauto.
  - unfold init_duty. case_bool_decide; [right; eauto|].
    destruct with_csr; [right; eauto|left; eauto].
Qed.

(** An integer width that is not positive stops the constructor at the
    duty register, whatever the other arguments are. *)
Lemma PDM_init_width_TypeError out w dd counter with_csr :
  w <= 0 →
  PDM_init out (Bits w) dd counter with_csr
  = Raise (TypeError "Width must be a strictly positive integer").
Proof.
  intros Hw. unfold PDM_init. rewrite init_out_eq.
  cbn -[init_duty init_counter init_compare].
  by rewrite init_duty_Bits_Raise.
Qed.

Lemma width_cases (bod : BitsOrDuty) :
  (∀ w, bod = Bits w → 1 <= w) ∨ (∃ w, bod = Bits w ∧ w <= 0).
Proof.
  destruct bod as [w|d]; [|left; done].
  destruct (Z.le_gt_cases w 0); [right; eauto|left]. intros ? [= <-]. lia.
Qed.

Lemma init_duty_ok self bod dd with_csr :
  duty_config_ok bod dd with_csr →
  ∃ self', init_duty self bod dd with_csr = Ok (self', bits_of bod, duty_of bod dd).
Proof.
  destruct bod as [w|d]; cbn [duty_config_ok bits_of duty_of].
  - intros Hw. rewrite init_duty_Bits by done. eauto.
  - intros (-> & -> & _). cbn. eauto.
Qed.

(** C7, as amended: a supplied counter that is not a signal, or whose
    width is below [bits], makes the constructor fail, with [ValueError]
    whenever an integer width given as [bits_or_duty] is positive (one
    that is not raises [TypeError] at the duty register, before the
    counter is looked at); a supplied signal at least [bits] wide is
    accepted whenever the duty configuration itself is accepted, and is
    then used as it is: it becomes the [counter] attribute and the module
    adds no increment. *)
Theorem supplied_counter_checked out bod dd counter with_csr :
  (counter ≠ PyNone → (∀ c, counter ≠ PySignal c) →
   (∃ e, PDM_init out bod dd counter with_csr = Raise e) ∧
   ((∀ w, bod = Bits w → 1 <= w) →
    ∃ msg, PDM_init out bod dd counter with_csr = Raise (ValueError msg))) ∧
  (∀ c, counter = PySignal c → nbits c < bits_of bod →
   (∃ e, PDM_init out bod dd counter with_csr = Raise e) ∧
   ((∀ w, bod = Bits w → 1 <= w) →
    ∃ msg, PDM_init out bod dd counter with_csr = Raise (ValueError msg))) ∧
  (∀ w, bod = Bits w → w <= 0 →
   PDM_init out bod dd counter with_csr
   = Raise (TypeError "Width must be a strictly positive integer")) ∧
  (∀ c, counter = PySignal c → bits_of bod <= nbits c →
   duty_config_ok bod dd with_csr →
   ∃ p taps, PDM_init out bod dd counter with_csr = Ok p ∧
             reversed_taps (bits_of bod) (nbits c) = Some taps ∧
             attrs p !! "counter" = Some (PySignal c) ∧
             sync p = [SIfLt c taps (duty_of bod dd) (out_of out)]).
Proof.
  assert (Hbad : (counter ≠ PyNone ∧ (∀ c, counter ≠ PySignal c)) ∨
                 (∃ c, counter = PySignal c ∧ nbits c < bits_of bod) →
                 (∀ w, bod = Bits w → 1 <= w) →
                 ∃ msg, PDM_init out bod dd counter with_csr
                        = Raise (ValueError msg)).
  { intros Hc Hw. unfold PDM_init. rewrite init_out_eq. cbn.
    destruct (init_duty_exn (match out with
                             | None => setattr new_module "out" (PySignal out_sig)
                             | Some _ => new_module
                             end) bod dd with_csr Hw) as [[[[s b] d] E]|[msg ->]];
      [|by eauto].
    rewrite E. apply init_duty_inv in E as (-> & _ & _). cbn.
    destruct Hc as [[Hn Hs]|(c & -> & Hlt)].
    - destruct counter; try done; cbn; eauto. by destruct (Hs s0).
    - cbn. rewrite (proj2 (Z.ltb_lt _ _) Hlt). cbn. eauto. }
  assert (Hfail : (counter ≠ PyNone ∧ (∀ c, counter ≠ PySignal c)) ∨
                  (∃ c, counter = PySignal c ∧ nbits c < bits_of bod) →
                  ∃ e, PDM_init out bod dd counter with_csr = Raise e).
  { intros Hc. destruct (width_cases bod) as [Hw|(w & -> & Hw)].
    - destruct (Hbad Hc Hw) as [msg ->]. eauto.
    - rewrite PDM_init_width_TypeError by done. eauto. }
  split; [|split; [|split]].
  - intros Hn Hs. split; [apply Hfail|apply Hbad]; by left.
  - intros c Hc Hlt. split; [apply Hfail|apply Hbad]; right; eauto.
  - intros w -> Hw. by apply PDM_init_width_TypeError.
  - intros c -> Hle Hok.
    assert (1 <= bits_of bod) as Hb.
    { destruct bod; cbn in *; [done|by destruct Hok as (_ & _ & ?)]. }
    unfold PDM_init. rewrite init_out_eq. cbn -[init_compare].
    destruct (init_duty_ok (match out with
                            | None => setattr new_module "out" (PySignal out_sig)
                            | Some _ => new_module
                            end) bod dd with_csr Hok) as [self' E].
    rewrite E. cbn -[init_compare].
    destruct (Z.ltb_spec (nbits c) (bits_of bod)); [lia|]. cbn -[init_compare].
    rewrite init_compare_Ok by lia.
    eexists _, (rev_taps (bits_of bod)). split; [done|].
    split; [by apply reversed_taps_ok|].
    apply init_duty_inv in E as (_ & _ & E). cbn.
    destruct bod as [w|d]; [destruct E as [_ ->]|destruct E as (_ & _ & ->)].
    all: destruct out; try destruct with_csr; cbn; attr_lookup; done.
Qed.

Lemma supplied_counter_checked_witness :
  (∃ msg, PDM_init None (Bits 8) 0 (PyInt 3) false = Raise (ValueError msg)) ∧
  (∃ msg, PDM_init None (Bits 8) 0
            (PySignal (mkSignal (External 1) 7 0 false)) false
          = Raise (ValueError msg)) ∧
  PDM_init None (Bits 0) 0 (PyInt 3) false
  = Raise (TypeError "Width must be a strictly positive integer") ∧
  (∃ p taps, PDM_init None (Bits 8) 0 (PySignal (sig8 1)) false = Ok p ∧
             reversed_taps 8 8 = Some taps ∧
             attrs p !! "counter" = Some (PySignal (sig8 1)) ∧
             sync p = [SIfLt (sig8 1) taps (duty_sig 8 0) out_sig]).
Proof.
  split; [|split; [|split]].
  - apply (proj1 (supplied_counter_checked None (Bits 8) 0 (PyInt 3) false));
      [discriminate|intros c; discriminate|intros w [= <-]; lia].
  - apply (proj1 (proj2 (supplied_counter_checked None (Bits 8) 0
             (PySignal (mkSignal (External 1) 7 0 false)) false))
             (mkSignal (External 1) 7 0 false));
      [reflexivity|cbn; lia|intros w [= <-]; lia].
  - apply (proj1 (proj2 (proj2 (supplied_counter_checked None (Bits 0) 0
             (PyInt 3) false))) 0); [reflexivity|lia].
  - apply (proj2 (proj2 (proj2 (supplied_counter_checked None (Bits 8) 0
             (PySignal (sig8 1)) false))) (sig8 1));
      [reflexivity|cbn; lia|cbn; lia].
Defined.

(** C7 as stated fails: a supplied counter that is a signal and wide
    enough does not make construction succeed when the duty
    configuration is rejected. *)
Lemma supplied_counter_wide_enough_still_rejected :
  bits_of (Duty (sig8 0)) <= nbits (sig8 1) ∧
  PDM_init None (Duty (sig8 0)) 0 (PySignal (sig8 1)) true
  = Raise (ValueError "with_csr can not be set when external duty is supplied").
Proof. split; [cbn; lia|reflexivity]. Qed.

(** C8: the module built with [with_csr] in the [sys] domain, the
    domain of the register interface, gets a synchronizer of depth 2
    between the CSR storage and the comparator's duty, not of depth 0:
    a value stored in the CSR is not seen by the comparator after one
    clock edge, only after two. *)
Theorem csr_synchronizer_depth_sys :
  ∃ p, PDM_init None (Bits 8) 0 PyNone true = Ok p ∧
       specials p = [MultiReg (storage_sig 8 0) (duty_sig 8 0) 2] ∧
       let σ := upd (power_up p) (Internal "_duty.storage") 5 in
       tick p false σ (Internal "duty") = 0 ∧
       tick p false (tick p false σ) (Internal "duty") = 5.
Proof.
  destruct (PDM_init None (Bits 8) 0 PyNone true) as [p|e] eqn:E;
    [|vm_compute in E; discriminate E].
  exists p. split; [reflexivity|].
  pose proof (PDM_init_specials _ _ _ _ _ _ E) as Hsp. cbn in Hsp.
  split; [done|]. cbv zeta. split.
  - rewrite (tick_duty_csr p _ (duty_sig 8 0) false _ Hsp).
    destruct (PDM_init_sync _ _ _ _ _ _ E)
      as (c & taps & _ & [(_ & _ & -> & Hs)|(? & _)]); [|done].
    unfold power_up, settle, signals. rewrite Hs, Hsp. reflexivity.
  - rewrite (tick_duty_csr_two_edges p _ (duty_sig 8 0) false false _ Hsp);
      [reflexivity|done].
Qed.

(** C9: after construction with [with_csr] the [duty] attribute is
    [None]; the comparator's duty register is kept as [_duty_csr], is
    driven by the [MultiReg] fed from the storage of the CSR [_duty], and
    a value written to it from outside does not survive a clock edge. *)
Theorem csr_hides_duty_attribute out bod dd counter p :
  PDM_init out bod dd counter true = Ok p →
  let d := duty_of bod dd in
  let st := storage_sig (bits_of bod) dd in
  attrs p !! "duty" = Some PyNone ∧
  attrs p !! "_duty_csr" = Some (PySignal d) ∧
  attrs p !! "_duty" = Some (PyCSRStorage (bits_of bod) st) ∧
  (∃ src taps dst, last (sync p) = Some (SIfLt src taps d dst)) ∧
  (∃ n, specials p = [MultiReg st d n]) ∧
  (∀ rst σ v, tick p rst (upd σ (sname d) v) (sname d) = tick p rst σ (sname d)).
Proof.
  intros H. cbv zeta.
  pose proof (PDM_init_attrs _ _ _ _ _ _ H) as (_ & _ & Hd & Hdc & Hcsr & _).
  pose proof (PDM_init_specials _ _ _ _ _ _ H) as Hsp. cbn in Hsp.
  pose proof (PDM_init_config _ _ _ _ _ _ H) as Hc.
  destruct bod as [w|s]; [|by destruct Hc].
  split; [done|]. split; [done|]. split; [done|]. split; [|split; [eauto|]].
  - destruct (PDM_init_sync _ _ _ _ _ _ H)
      as (c & taps & _ & [(_ & _ & _ & ->)|(_ & _ & ->)]); cbn; eauto.
  - intros rst σ v. rewrite !(tick_duty_csr p _ _ _ _ Hsp). by apply upd_ne.
Qed.

Lemma csr_hides_duty_attribute_witness :
  ∃ p, PDM_init None (Bits 8) 3 PyNone true = Ok p ∧
       attrs p !! "duty" = Some PyNone ∧
       attrs p !! "_duty_csr" = Some (PySignal (duty_sig 8 3)).
Proof.
  destruct (PDM_init None (Bits 8) 3 PyNone true) as [p|e] eqn:E;
    [|vm_compute in E; discriminate E].
  exists p. split; [reflexivity|].
  destruct (csr_hides_duty_attribute None (Bits 8) 3 PyNone p E) as (H1 & H2 & _).
  split; [exact H1|exact H2].
Defined.

(** C10: a supplied output signal is the target of the comparator and
    takes the PDM output on every clock edge (domain reset apart), but is
    not stored as the [out] attribute; the attribute exists exactly when
    the signal was omitted and created by the constructor. *)
Theorem out_attribute_only_when_created out bod dd counter with_csr p :
  (∀ o, out = Some o → supplied o) →
  PDM_init out bod dd counter with_csr = Ok p →
  attrs p !! "out" = match out with
                     | None => Some (PySignal out_sig)
                     | Some _ => None
                     end ∧
  ∃ c taps,
    last (sync p) = Some (SIfLt c taps (duty_of bod dd) (out_of out)) ∧
    reversed_taps (bits_of bod) (nbits c) = Some taps ∧
    attrs p !! "counter" = Some (PySignal c) ∧
    ∀ σ, tick p false σ (sname (out_of out))
         = pdm_out (bits_of bod) (nbits c)
                   (σ (sname c)) (σ (sname (duty_of bod dd))).
Proof.
  intros Ho H. split.
  - by destruct (PDM_init_attrs _ _ _ _ _ _ H) as (? & _).
  - by apply (PDM_tick_out _ _ _ _ _ _ Ho H).
Qed.

Lemma out_attribute_only_when_created_witness :
  ∃ p, PDM_init (Some (sig8 2)) (Bits 8) 3 PyNone false = Ok p ∧
       attrs p !! "out" = None ∧
       ∃ c taps, last (sync p) = Some (SIfLt c taps (duty_sig 8 3) (sig8 2)).
Proof.
  destruct (PDM_init (Some (sig8 2)) (Bits 8) 3 PyNone false) as [p|e] eqn:E;
    [|vm_compute in E; discriminate E].
  exists p. split; [reflexivity|].
  destruct (out_attribute_only_when_created
              (Some (sig8 2)) (Bits 8) 3 PyNone false p)
    as (H1 & c & taps & H2 & _); [|exact E|].
  - intros o [= <-]. split; [reflexivity|cbn; lia].
  - split; [exact H1|]. exists c, taps. exact H2.
Defined.

(** ** Further properties of the constructor, the comparator and the running
       module *)

Lemma py_range_down_any (a : Z) :
  py_range a (-1) (-1) = (λ k : nat, a - Z.of_nat k) <$> seq 0 (Z.to_nat (a + 1)).
Proof.
  unfold py_range.
  replace (0 <? -1) with false by reflexivity. cbn iota.
  replace ((a - -1 - -1 - 1) `div` (- -1)) with (a + 1)
    by (rewrite Z.div_1_r; lia).
  apply list_fmap_ext. intros _ k _. lia.
Qed.

Lemma slice_start_bound (bits n : Z) :
  ∃ a, slice_indices (Some (bits - 1)) None (-1) n = (a, -1, -1) ∧
       (a <= n - 1 ∨ a = -1).
Proof.
  unfold slice_indices. replace (-1 <? 0) with true by reflexivity. cbn iota.
  destruct (Z.ltb_spec (bits - 1) 0).
  - destruct (Z.ltb_spec (bits - 1 + n) (-1)); eexists;
      (split; [reflexivity|lia]).
  - destruct (Z.ltb_spec (n - 1) (bits - 1)); eexists;
      (split; [reflexivity|lia]).
Qed.

(** The reversed slice never raises [IndexError]. *)
Lemma reversed_taps_total (bits n : Z) :
  ∃ taps, reversed_taps bits n = Some taps.
Proof.
  unfold reversed_taps, getitem_slice.
  destruct (slice_start_bound bits n) as (a & -> & Ha).
  replace (-1 =? 1) with false by reflexivity.
  rewrite py_range_down_any. eexists. apply mapM_getitem_int_id.
  apply Forall_fmap, Forall_forall. intros k Hk.
  apply elem_of_seq in Hk. cbn. lia.
Qed.

Lemma init_duty_cases self bod dd with_csr :
  (∃ self', init_duty self bod dd with_csr
            = Ok (self', bits_of bod, duty_of bod dd)) ∨
  (∃ msg, init_duty self bod dd with_csr = Raise (ValueError msg)) ∨
  (bits_of bod <= 0 ∧
   init_duty self bod dd with_csr
   = Raise (TypeError "Width must be a strictly positive integer")).
Proof.
  destruct bod as [w|d]; cbn [bits_of duty_of].
  - destruct (Z.le_gt_cases w 0) as [Hw|Hw].
    + right. right. by rewrite init_duty_Bits_Raise.
    + left. rewrite init_duty_Bits by lia. eauto.
  - unfold init_duty. case_bool_decide; [right; left; eauto|].
    destruct with_csr; [right; left; eauto|left; cbn; eauto].
Qed.

Lemma init_counter_cases self bits counter :
  (∃ r, init_counter self bits counter = Ok r) ∨
  (∃ msg, init_counter self bits counter = Raise (ValueError msg)) ∨
  (bits <= 0 ∧
   init_counter self bits counter
   = Raise (TypeError "Width must be a strictly positive integer")).
Proof.
  destruct counter as [|z|s|c|sz st|cd|k]; try (right; left; cbn; by eauto).
  - destruct (Z.le_gt_cases bits 0).
    + right. right. unfold init_counter. by rewrite Signal_new_Raise.
    + left. rewrite init_counter_owned by lia. eauto.
  - unfold init_counter. destruct (_ <? _); cbn; eauto.
Qed.

Lemma init_compare_total self bits c d o :
  ∃ p, init_compare self bits c d o = Ok p.
Proof.
  unfold init_compare. destruct (reversed_taps_total bits (nbits c)) as [taps ->].
  cbn. eauto.
Qed.

(** X1: for arguments of the constructor's types, [PDM.__init__]
    returns the module, raises [ValueError], or raises the [TypeError]
    of a signal width that is not positive; the slice of the counter
    never raises [IndexError] and the attribute reads of [add_csr] never
    fail inside the constructor. *)
Theorem constructor_exceptions out bod dd counter with_csr :
  (∃ p, PDM_init out bod dd counter with_csr = Ok p) ∨
  (∃ msg, PDM_init out bod dd counter with_csr = Raise (ValueError msg)) ∨
  (bits_of bod <= 0 ∧
   PDM_init out bod dd counter with_csr
   = Raise (TypeError "Width must be a strictly positive integer")).
Proof.
  unfold PDM_init. rewrite init_out_eq.
  cbn -[init_duty init_counter init_compare].
  destruct (init_duty_cases (match out with
                             | None => setattr new_module "out" (PySignal out_sig)
                             | Some _ => new_module
                             end) bod dd with_csr)
    as [[s ->]|[[msg ->]|[Hw ->]]]; [|right; left; eauto|right; right; done].
  cbn -[init_counter init_compare].
  destruct (init_counter_cases s (bits_of bod) counter)
    as [[[s' c] ->]|[[msg ->]|[Hw ->]]];
    [|right; left; eauto|right; right; done].
  cbn -[init_compare]. left. apply init_compare_total.
Qed.

(** X2: the constructor accepts exactly the configurations in which
    the duty is an owned register of positive width, or a supplied
    signal with [default_duty] zero and [with_csr] unset, and the counter
    is omitted (with [bits] positive) or is a signal at least [bits]
    wide. *)
Theorem constructor_accepts_iff out bod dd counter with_csr :
  (∃ p, PDM_init out bod dd counter with_csr = Ok p)
  ↔ match bod with
    | Bits w => 1 <= w
    | Duty _ => dd = 0 ∧ with_csr = false
    end ∧
    match counter with
    | PyNone => 1 <= bits_of bod
    | PySignal c => bits_of bod <= nbits c
    | _ => False
    end.
Proof.
  split.
  - intros [p H]. split; [by apply (PDM_init_config _ _ _ _ _ _ H)|].
    destruct (PDM_init_sync _ _ _ _ _ _ H)
      as (c & taps & _ & [(-> & ? & _)|(-> & ? & _)]); done.
  - intros [Hd Hc]. unfold PDM_init. rewrite init_out_eq.
    cbn -[init_duty init_counter init_compare].
    assert (∃ self', init_duty (match out with
                           | None => setattr new_module "out" (PySignal out_sig)
                           | Some _ => new_module
                           end) bod dd with_csr
                     = Ok (self', bits_of bod, duty_of bod dd)) as [self' ->].
    { destruct bod as [w|d]; cbn [bits_of duty_of].
      - rewrite init_duty_Bits by done. eauto.
      - destruct Hd as [-> ->]. cbn. eauto. }
    cbn -[init_counter init_compare].
    destruct counter as [|z|s|c|sz st|cd|k]; try done.
    + rewrite init_counter_owned by done. cbn -[init_compare].
      apply init_compare_total.
    + unfold init_counter. destruct (Z.ltb_spec (nbits c) (bits_of bod)); [lia|].
      cbn -[init_compare]. apply init_compare_total.
Qed.

(** X3: the attributes the constructor leaves on the module are
    [duty] and [counter], [out] only when it created the output, [bits]
    only when it was given a width rather than a duty signal, and
    [_duty_csr] and [_duty] only with the CSR; it sets no other. *)
Theorem constructor_attribute_names out bod dd counter with_csr p :
  PDM_init out bod dd counter with_csr = Ok p →
  dom (attrs p)
  = ({["duty"; "counter"]} : gset string)
    ∪ (if out is None then {["out"]} else ∅)
    ∪ (if bod is Bits _ then {["bits"]} else ∅)
    ∪ (if with_csr then {["_duty_csr"; "_duty"]} else ∅).
Proof.
  intros H. init_inversion H.
  all: destruct bod as [w|d];
    [destruct Hd as [_ ->]|destruct Hd as (_ & -> & ->)].
  all: destruct out; try destruct with_csr; cbn;
    rewrite ?dom_insert_L, dom_empty_L.
  all: set_solver.
Qed.

Lemma constructor_attribute_names_witness :
  ∃ p, PDM_init (Some (sig8 2)) (Duty (sig8 0)) 0 (PySignal (sig8 1)) false
       = Ok p ∧
       dom (attrs p) = ({["duty"; "counter"]} : gset string) ∪ ∅ ∪ ∅ ∪ ∅.
Proof.
  destruct (PDM_init (Some (sig8 2)) (Duty (sig8 0)) 0 (PySignal (sig8 1)) false)
    as [p|e] eqn:E; [|vm_compute in E; discriminate E].
  exists p. split; [reflexivity|].
  exact (constructor_attribute_names _ _ _ _ _ p E).
Defined.

Lemma reversed_counter_width (bits n c : Z) :
  1 <= bits <= n → reversed_counter bits n c = reversed_counter bits bits c.
Proof.
  intros Hb. apply Z.bits_inj'. intros i Hi.
  rewrite !reversed_counter_testbit by lia. done.
Qed.

(** X4: with a counter wider than [bits] only its low [bits] bits reach
    the comparator: the output is the one a [bits] wide counter holding
    [c mod 2^bits] would give. *)
Theorem wide_counter_low_bits_only (bits n c d : Z) :
  1 <= bits <= n →
  pdm_out bits n c d = pdm_out bits bits (c `mod` 2 ^ bits) d.
Proof.
  intros Hb. unfold pdm_out.
  rewrite <- (reversed_counter_mod bits n Hb c).
  by rewrite (reversed_counter_width bits n) by done.
Qed.

Lemma wide_counter_low_bits_only_witness :
  1 <= 3 <= 8 ∧ pdm_out 3 8 205 3 = pdm_out 3 3 (205 `mod` 2 ^ 3) 3.
Proof. split; [lia|]. apply (wide_counter_low_bits_only 3 8 205 3). lia. Defined.

Lemma low_bits_zero (c k : Z) :
  0 <= k → (c `mod` 2 ^ k = 0 ↔ ∀ j, 0 <= j < k → Z.testbit c j = false).
Proof.
  intros Hk. split.
  - intros H j Hj. rewrite <- (Z.mod_pow2_bits_low c k j) by lia.
    rewrite H. apply Z.testbit_0_l.
  - intros H. apply Z.bits_inj'. intros j Hj. rewrite Z.testbit_0_l.
    destruct (Z.lt_ge_cases j k).
    + rewrite Z.mod_pow2_bits_low by lia. apply H. lia.
    + apply Z.mod_pow2_bits_high. lia.
Qed.

Lemma below_pow2_bits (x w : Z) :
  0 <= w → 0 <= x → (x < 2 ^ w ↔ ∀ i, w <= i → Z.testbit x i = false).
Proof.
  intros Hw Hx. split.
  - intros Hlt i Hi. rewrite <- (Z.mod_small x (2 ^ w)) by lia.
    apply Z.mod_pow2_bits_high. lia.
  - by apply testbit_high_bound.
Qed.

(** X5: a duty of [2^(bits-k)] asserts the output exactly on the
    counter values that are multiples of [2^k]: the pulses are evenly
    spaced, one every [2^k] cycles. *)
Theorem power_of_two_duty_evenly_spaced (bits n k c : Z) :
  1 <= bits <= n → 1 <= k <= bits →
  (pdm_out bits n c (2 ^ (bits - k)) = 1 ↔ c `mod` 2 ^ k = 0).
Proof.
  intros Hb Hk. rewrite pdm_out_1.
  rewrite below_pow2_bits by (lia || apply reversed_counter_nonneg).
  rewrite low_bits_zero by lia. split.
  - intros H j Hj. specialize (H (bits - 1 - j)).
    rewrite reversed_counter_testbit, decide_True in H by lia.
    replace (bits - 1 - (bits - 1 - j)) with j in H by lia. apply H. lia.
  - intros H i Hi. rewrite reversed_counter_testbit by done.
    case_decide; [|done]. apply H. lia.
Qed.

Lemma power_of_two_duty_evenly_spaced_witness :
  (1 <= 3 <= 3 ∧ 1 <= 2 <= 3) ∧
  (pdm_out 3 3 4 (2 ^ (3 - 2)) = 1 ↔ 4 `mod` 2 ^ 2 = 0).
Proof.
  split; [lia|]. apply (power_of_two_duty_evenly_spaced 3 3 2 4); lia.
Defined.

Lemma reversed_counter_zero (bits n : Z) :
  1 <= bits <= n → reversed_counter bits n 0 = 0.
Proof.
  intros Hb. apply Z.bits_inj'. intros i Hi.
  rewrite reversed_counter_testbit by done.
  rewrite !Z.testbit_0_l. by case_decide.
Qed.

(** X6: the all-ones counter value is never asserted, whatever duty
    below [2^bits] is set, so the output cannot stay high for a whole
    period; counter value 0 is asserted for every duty of at least 1. *)
Theorem first_and_last_cycle (bits n d : Z) :
  1 <= bits <= n →
  (d < 2 ^ bits → pdm_out bits n (2 ^ bits - 1) d = 0) ∧
  (1 <= d → pdm_out bits n 0 d = 1).
Proof.
  intros Hb. split.
  - intros Hd. apply pdm_out_0. rewrite reversed_counter_ones by done. lia.
  - intros Hd. apply pdm_out_1. rewrite reversed_counter_zero by done. lia.
Qed.

Lemma first_and_last_cycle_witness :
  1 <= 3 <= 3 ∧ pdm_out 3 3 (2 ^ 3 - 1) 7 = 0 ∧ pdm_out 3 3 0 1 = 1.
Proof.
  split; [lia|]. split.
  - apply (first_and_last_cycle 3 3 7); lia.
  - apply (first_and_last_cycle 3 3 1); lia.
Defined.

Lemma PDM_init_targets out bod dd counter with_csr p x :
  PDM_init out bod dd counter with_csr = Ok p →
  x ≠ sname (out_of out) →
  (counter = PyNone → x ≠ Internal "counter") →
  Forall (λ st, sname (target st) ≠ x) (sync p).
Proof.
  intros H Hxo Hxc.
  destruct (PDM_init_sync _ _ _ _ _ _ H)
    as (c & taps & _ & [(Hn & _ & -> & ->)|(_ & _ & ->)]).
  - repeat constructor; cbn; apply not_eq_sym; auto.
  - repeat constructor; cbn; by apply not_eq_sym.
Qed.

Lemma PDM_init_outputs out bod dd counter with_csr p x :
  PDM_init out bod dd counter with_csr = Ok p →
  (with_csr = true → x ≠ Internal "duty") →
  Forall (λ s, match s with MultiReg _ o' _ => sname o' ≠ x end) (specials p).
Proof.
  intros H Hx. rewrite (PDM_init_specials _ _ _ _ _ _ H).
  pose proof (PDM_init_config _ _ _ _ _ _ H) as Hc.
  destruct with_csr; [|constructor].
  destruct bod as [w|d]; [|by destruct Hc].
  repeat constructor. cbn. apply not_eq_sym. by apply Hx.
Qed.

(** X7: a clock edge, under reset or not, changes no signal but the
    output, the owned counter and, with the CSR, the duty register and
    the synchronizer stages: in particular a supplied counter, a supplied
    duty and a duty register without CSR are only read. *)
Theorem module_writes_nothing_else out bod dd counter with_csr p x :
  PDM_init out bod dd counter with_csr = Ok p →
  x ≠ sname (out_of out) →
  (counter = PyNone → x ≠ Internal "counter") →
  (with_csr = true → x ≠ Internal "duty") →
  (∀ k, x ≠ Stage k) →
  ∀ rst σ, tick p rst σ x = σ x.
Proof.
  intros H Hxo Hxc Hxd Hst rst σ. apply tick_untouched; [done| |].
  - by apply (PDM_init_outputs _ _ _ _ _ _ _ H).
  - by apply (PDM_init_targets _ _ _ _ _ _ _ H).
Qed.

Lemma module_writes_nothing_else_witness :
  ∃ p, PDM_init None (Duty (sig8 0)) 0 (PySignal (sig8 1)) false = Ok p ∧
       ∀ rst σ, tick p rst σ (External 0) = σ (External 0) ∧
                tick p rst σ (External 1) = σ (External 1).
Proof.
  destruct (PDM_init None (Duty (sig8 0)) 0 (PySignal (sig8 1)) false)
    as [p|e] eqn:E; [|vm_compute in E; discriminate E].
  exists p. split; [reflexivity|]. intros rst σ. split.
  - apply (module_writes_nothing_else _ _ _ _ _ p (External 0) E); done.
  - apply (module_writes_nothing_else _ _ _ _ _ p (External 1) E); done.
Defined.

Lemma run_snoc p rsts rst σ :
  run p (rsts ++ [rst]) σ = tick p rst (run p rsts σ).
Proof. unfold run. by rewrite foldl_app. Qed.

(** The owned counter stays within its width. *)
Lemma run_counter_range out bod dd with_csr p :
  (∀ o, out = Some o → supplied o) →
  PDM_init out bod dd PyNone with_csr = Ok p →
  ∀ rsts σ,
    0 <= σ (Internal "counter") < 2 ^ bits_of bod →
    0 <= run p rsts σ (Internal "counter") < 2 ^ bits_of bod.
Proof.
  intros Ho H rsts σ Hc.
  destruct (owned_counter_tick _ _ _ _ _ Ho H) as (_ & Htick).
  destruct rsts as [|rst rsts _] using rev_ind; [done|].
  rewrite run_snoc, Htick. apply Z.mod_pos_bound. lia.
Qed.

(** X8: after any sequence of clock edges, with the domain reset
    asserted on any of them, the owned counter has advanced by the number
    of edges modulo [2^bits]. *)
Theorem owned_counter_after_edges out bod dd with_csr p :
  (∀ o, out = Some o → supplied o) →
  PDM_init out bod dd PyNone with_csr = Ok p →
  ∀ rsts σ,
    0 <= σ (Internal "counter") < 2 ^ bits_of bod →
    run p rsts σ (Internal "counter")
    = (σ (Internal "counter") + Z.of_nat (length rsts)) `mod` 2 ^ bits_of bod.
Proof.
  intros Ho H rsts σ Hc.
  destruct (owned_counter_tick _ _ _ _ _ Ho H) as (_ & Htick).
  induction rsts as [|rst rsts IH] using rev_ind.
  - cbn. rewrite Z.add_0_r. by rewrite Z.mod_small.
  - rewrite run_snoc, Htick, IH. unfold counter_next.
    rewrite Zplus_mod_idemp_l, length_app. cbn. f_equal. lia.
Qed.

Lemma owned_counter_after_edges_witness :
  ∃ p, PDM_init None (Bits 8) 0 PyNone false = Ok p ∧
       ∀ σ, 0 <= σ (Internal "counter") < 2 ^ 8 →
            run p [false; true; false] σ (Internal "counter")
            = (σ (Internal "counter") + 3) `mod` 2 ^ 8.
Proof.
  destruct (PDM_init None (Bits 8) 0 PyNone false) as [p|e] eqn:E;
    [|vm_compute in E; discriminate E].
  exists p. split; [reflexivity|]. intros σ Hσ.
  apply (owned_counter_after_edges None (Bits 8) 0 false p);
    [discriminate|exact E|exact Hσ].
Defined.

Lemma run_untouched p rsts σ x :
  (∀ k, x ≠ Stage k) →
  Forall (λ s, match s with MultiReg _ o' _ => sname o' ≠ x end) (specials p) →
  Forall (λ st, sname (target st) ≠ x) (sync p) →
  run p rsts σ x = σ x.
Proof.
  intros Hst Hsp Hs. induction rsts as [|rst rsts IH] using rev_ind; [done|].
  rewrite run_snoc. by rewrite tick_untouched.
Qed.

Lemma power_up_counter out bod dd with_csr p :
  (∀ o, out = Some o → supplied o) →
  PDM_init out bod dd PyNone with_csr = Ok p →
  power_up p (Internal "counter") = 0.
Proof.
  intros Ho H.
  pose proof (PDM_init_specials_frame _ _ _ _ _ _ (Internal "counter") H) as Hsp.
  destruct (PDM_init_sync _ _ _ _ _ _ H)
    as (c' & taps & _ & [(_ & _ & -> & Hs)|(? & _)]); [|done].
  unfold power_up, settle. rewrite settle_frame by (by apply Hsp).
  unfold signals. rewrite Hs. cbn. apply upd_eq.
Qed.

(** X9: a module built with an owned duty register of reset value
    [default_duty] and an owned counter, started at power-up and run for
    any number of clock edges with or without reset, asserts its output
    on exactly [default_duty] of the next [2^bits] cycles. *)
Theorem density_from_power_up out w dd p :
  (∀ o, out = Some o → supplied o) →
  PDM_init out (Bits w) dd PyNone false = Ok p →
  0 <= dd < 2 ^ w →
  ∀ rsts,
    asserted (out_trace p (out_of out) (Z.to_nat (2 ^ w))
                        (run p rsts (power_up p)))
    = Z.to_nat dd.
Proof.
  intros Ho H Hdd rsts.
  assert (Hdo : sname (duty_of (Bits w) dd) ≠ sname (out_of out)).
  { apply not_eq_sym. by apply out_of_name. }
  rewrite (out_trace_owned out (Bits w) dd p Ho) by done.
  pose proof (PDM_init_config _ _ _ _ _ _ H) as Hw. cbn in Hw.
  assert (Hduty : run p rsts (power_up p) (Internal "duty") = dd).
  { rewrite run_untouched.
    - destruct (PDM_init_sync _ _ _ _ _ _ H)
        as (c & taps & _ & [(_ & _ & -> & Hs)|(? & _)]); [|done].
      unfold power_up, settle, signals.
      rewrite Hs, (PDM_init_specials _ _ _ _ _ _ H). reflexivity.
    - done.
    - by apply (PDM_init_outputs _ _ _ _ _ _ _ H).
    - apply (PDM_init_targets _ _ _ _ _ _ _ H); [|done].
      apply not_eq_sym. by apply out_of_name. }
  cbn [duty_of duty_sig sname bits_of]. rewrite Hduty.
  apply window_density; [lia| |lia].
  apply (run_counter_range _ _ _ _ _ Ho H).
  rewrite (power_up_counter _ _ _ _ _ Ho H).
  cbn. split; [lia|]. apply Z.pow_pos_nonneg; lia.
Qed.

Lemma density_from_power_up_witness :
  ∃ p, PDM_init None (Bits 3) 5 PyNone false = Ok p ∧
       asserted (out_trace p out_sig (Z.to_nat (2 ^ 3))
                           (run p [false; true] (power_up p)))
       = Z.to_nat 5.
Proof.
  destruct (PDM_init None (Bits 3) 5 PyNone false) as [p|e] eqn:E;
    [|vm_compute in E; discriminate E].
  exists p. split; [reflexivity|].
  apply (density_from_power_up None 3 5 p); [discriminate|exact E|lia].
Defined.

(** X10: for a module that created its own output (no CSR): the output
    is 0 at power-up, and while the duty signal holds 0 the output is 0
    after every clock edge, under reset or not: there is no switching. *)
Theorem duty_zero_no_switching bod dd counter p :
  (∀ d, bod = Duty d → supplied d) →
  (∀ c, counter = PySignal c → supplied c) →
  PDM_init None bod dd counter false = Ok p →
  power_up p (Internal "out") = 0 ∧
  ∀ σ, σ (sname (duty_of bod dd)) = 0 →
       ∀ rsts rst, run p (rsts ++ [rst]) σ (Internal "out") = 0.
Proof.
  intros Hd Hcs H.
  pose proof (PDM_init_specials _ _ _ _ _ _ H) as Hsp. cbn in Hsp.
  assert (Hdn : ∀ x, (∀ k, x ≠ External k) → x ≠ Internal "duty" →
                     sname (duty_of bod dd) ≠ x).
  { intros x Hx Hi. destruct bod as [w|d]; cbn.
    - by apply not_eq_sym.
    - apply supplied_name; [by apply Hd|done]. }
  destruct (PDM_init_sync _ _ _ _ _ _ H)
    as (c & taps & _ & [(Hcn & _ & Hc & Hs)|(Hcn & _ & Hs)]).
  - (* owned counter *)
    split.
    + unfold power_up, settle, signals. rewrite Hs, Hsp, Hc. cbn.
      rewrite !upd_ne by (done || by apply Hdn). apply upd_eq.
    + intros σ Hz rsts rst. rewrite run_snoc.
      change (Internal "out") with (sname out_sig).
      rewrite (tick_out p [SIncr c] c taps _ out_sig rst _ Hs);
        [|repeat constructor; by rewrite Hc|rewrite Hsp; constructor|done].
      rewrite (run_untouched p rsts σ (sname (duty_of bod dd))), Hz;
        [|intros k; by apply Hdn
         |rewrite Hsp; constructor
         |rewrite Hs, Hc; repeat constructor; cbn; apply not_eq_sym;
          by apply Hdn].
      destruct (Z.ltb_spec (eval_taps taps (run p rsts σ (sname c))) 0) as [Hn|_].
      { pose proof (Cat_nonneg (bit_of (run p rsts σ (sname c)) <$> taps)).
        unfold eval_taps in Hn. lia. }
      by destruct rst.
  - (* supplied counter *)
    assert (Hc : supplied c) by (by apply Hcs).
    split.
    + unfold power_up, settle, signals. rewrite Hs, Hsp. cbn.
      rewrite upd_ne by (apply supplied_name; done).
      rewrite upd_ne by (by apply Hdn). apply upd_eq.
    + intros σ Hz rsts rst. rewrite run_snoc.
      change (Internal "out") with (sname out_sig).
      rewrite (tick_out p [] c taps _ out_sig rst _ Hs);
        [|constructor|rewrite Hsp; constructor|done].
      rewrite (run_untouched p rsts σ (sname (duty_of bod dd))), Hz;
        [|intros k; by apply Hdn
         |rewrite Hsp; constructor
         |rewrite Hs; repeat constructor; cbn; apply not_eq_sym;
          by apply Hdn].
      destruct (Z.ltb_spec (eval_taps taps (run p rsts σ (sname c))) 0) as [Hn|_].
      { pose proof (Cat_nonneg (bit_of (run p rsts σ (sname c)) <$> taps)).
        unfold eval_taps in Hn. lia. }
      by destruct rst.
Qed.

Lemma duty_zero_no_switching_witness :
  ∃ p, PDM_init None (Bits 8) 0 PyNone false = Ok p ∧
       power_up p (Internal "out") = 0 ∧
       ∀ σ, σ (Internal "duty") = 0 →
            run p [false; true; false] σ (Internal "out") = 0.
Proof.
  destruct (PDM_init None (Bits 8) 0 PyNone false) as [p|e] eqn:E;
    [|vm_compute in E; discriminate E].
  exists p. split; [reflexivity|].
  destruct (duty_zero_no_switching (Bits 8) 0 PyNone p) as [H0 Hrun];
    [discriminate|discriminate|exact E|].
  split; [exact H0|]. intros σ Hσ. exact (Hrun σ Hσ [false; true] false).
Defined.

(** X11: calling [add_csr] on a module constructed without the CSR
    gives the module the constructor builds with [with_csr] set. *)
Theorem add_csr_after_construction out w dd counter p :
  PDM_init out (Bits w) dd counter false = Ok p →
  add_csr p = PDM_init out (Bits w) dd counter true.
Proof.
  intros H.
  pose proof (PDM_init_config _ _ _ _ _ _ H) as Hw. cbn in Hw.
  pose proof (PDM_init_attrs _ _ _ _ _ _ H) as (_ & Hb & Hd & _).
  rewrite (add_csr_Ok p w dd Hw Hd Hb).
  unfold PDM_init. rewrite init_out_eq.
  cbn -[init_duty init_counter init_compare].
  rewrite init_duty_Bits by done. cbn -[init_counter init_compare].
  init_inversion H.
  all: destruct Hd0 as [_ ->].
  all: change (bits_of (Bits w)) with w in *.
  - rewrite init_counter_owned by done. cbn -[init_compare].
    unfold init_compare. rewrite Htaps. cbn. f_equal.
    unfold add_specials, add_sync, setattr. cbn. f_equal.
    apply map_eq. intros i. rewrite !lookup_insert.
    repeat case_decide; try done; congruence.
  - unfold init_counter. destruct (Z.ltb_spec (nbits c) w); [cbn in *; lia|].
    cbn -[init_compare]. unfold init_compare. rewrite Htaps. cbn. f_equal.
    unfold add_specials, add_sync, setattr. cbn. f_equal.
    apply map_eq. intros i. rewrite !lookup_insert.
    repeat case_decide; try done; congruence.
Qed.

Lemma add_csr_after_construction_witness :
  ∃ p, PDM_init None (Bits 8) 3 PyNone false = Ok p ∧
       add_csr p = PDM_init None (Bits 8) 3 PyNone true.
Proof.
  destruct (PDM_init None (Bits 8) 3 PyNone false) as [p|e] eqn:E;
    [|vm_compute in E; discriminate E].
  exists p. split; [reflexivity|].
  exact (add_csr_after_construction None 8 3 PyNone p E).
Defined.

(** X12: on a module constructed with a supplied duty signal [add_csr]
    raises [AttributeError]: the constructor did not set [bits]. *)
Theorem add_csr_needs_owned_duty out d dd counter with_csr p :
  PDM_init out (Duty d) dd counter with_csr = Ok p →
  add_csr p = Raise (AttributeError "bits").
Proof.
  intros H.
  pose proof (PDM_init_attrs _ _ _ _ _ _ H) as (_ & Hb & Hd & _).
  unfold add_csr, getattr. rewrite Hd. cbn.
  attr_lookup. rewrite Hb. reflexivity.
Qed.

Lemma add_csr_needs_owned_duty_witness :
  ∃ p, PDM_init None (Duty (sig8 0)) 0 PyNone false = Ok p ∧
       add_csr p = Raise (AttributeError "bits").
Proof.
  destruct (PDM_init None (Duty (sig8 0)) 0 PyNone false) as [p|e] eqn:E;
    [|vm_compute in E; discriminate E].
  exists p. split; [reflexivity|].
  exact (add_csr_needs_owned_duty None (sig8 0) 0 PyNone false p E).
Defined.

(** X13: [add_csr] cannot be applied twice: on a module that already
    has the CSR the [duty] attribute is [None], and reading its reset
    value raises [AttributeError]. *)
Theorem add_csr_only_once out bod dd counter p :
  PDM_init out bod dd counter true = Ok p →
  add_csr p = Raise (AttributeError "reset").
Proof.
  intros H.
  pose proof (PDM_init_config _ _ _ _ _ _ H) as Hc.
  destruct bod as [w|d]; [|by destruct Hc].
  pose proof (PDM_init_attrs _ _ _ _ _ _ H) as (_ & Hb & Hd & _).
  unfold add_csr, getattr. rewrite Hd. cbn.
  attr_lookup. rewrite Hb. cbn. attr_lookup. reflexivity.
Qed.

Lemma add_csr_only_once_witness :
  ∃ p, PDM_init None (Bits 8) 3 PyNone true = Ok p ∧
       add_csr p = Raise (AttributeError "reset").
Proof.
  destruct (PDM_init None (Bits 8) 3 PyNone true) as [p|e] eqn:E;
    [|vm_compute in E; discriminate E].
  exists p. split; [reflexivity|].
  exact (add_csr_only_once None (Bits 8) 3 PyNone p E).
Defined.

Lemma reset_store_default (l : list Signal) (x : sig_name) :
  Forall (λ s, sname s ≠ x) l →
  foldr (λ s σ, upd σ (sname s) (reset s)) (λ _, 0) l x = 0.
Proof.
  induction 1 as [|s l Hs _ IH]; [done|]. cbn [foldr]. by rewrite upd_ne.
Qed.

(** X14: with the CSR the comparator's duty is 0 at power-up, follows
    the first synchronizer stage on every clock edge, and holds after two
    edges the value the CSR storage held before them. *)
Theorem csr_value_reaches_duty_after_two_edges out bod dd counter p :
  (∀ o, out = Some o → supplied o) →
  (∀ c, counter = PySignal c → supplied c) →
  PDM_init out bod dd counter true = Ok p →
  power_up p (Internal "duty") = 0 ∧
  (∀ rst σ, tick p rst σ (Internal "duty") = σ (Stage 0)) ∧
  (∀ rst rst' σ,
     tick p rst' (tick p rst σ) (Internal "duty") = σ (Internal "_duty.storage")).
Proof.
  intros Ho Hcs H.
  pose proof (PDM_init_specials _ _ _ _ _ _ H) as Hsp. cbn in Hsp.
  pose proof (PDM_init_config _ _ _ _ _ _ H) as Hc.
  destruct bod as [w|d]; [|by destruct Hc]. cbn in Hsp.
  split; [|split].
  - unfold power_up, settle. rewrite Hsp. cbn [foldl settle_special].
    change (Internal "duty") with (sname (duty_sig w dd)). rewrite upd_eq.
    apply reset_store_default. unfold signals. rewrite Hsp.
    assert (Hout : sname (out_of out) ≠ Stage 1) by (by apply out_of_name).
    destruct (PDM_init_sync _ _ _ _ _ _ H)
      as (c & taps & _ & [(_ & _ & -> & ->)|(-> & _ & ->)]).
    + repeat constructor; done.
    + assert (sname c ≠ Stage 1) by (apply supplied_name; [by apply Hcs|done]).
      repeat constructor; done.
  - intros rst σ. apply (tick_duty_csr p _ (duty_sig w dd) rst σ Hsp).
  - intros rst rst' σ.
    by apply (tick_duty_csr_two_edges p _ (duty_sig w dd) rst rst' σ Hsp).
Qed.

Lemma csr_value_reaches_duty_after_two_edges_witness :
  ∃ p, PDM_init None (Bits 8) 3 PyNone true = Ok p ∧
       power_up p (Internal "duty") = 0 ∧
       ∀ σ, tick p false (tick p false σ) (Internal "duty")
            = σ (Internal "_duty.storage").
Proof.
  destruct (PDM_init None (Bits 8) 3 PyNone true) as [p|e] eqn:E;
    [|vm_compute in E; discriminate E].
  exists p. split; [reflexivity|].
  destruct (csr_value_reaches_duty_after_two_edges None (Bits 8) 3 PyNone p)
    as (H0 & _ & H2); [discriminate|discriminate|exact E|].
  split; [exact H0|]. intros σ. apply H2.
Defined.
